(** * pyEIA: the chunked concurrent fetch engine of [pyeia/api.py]

    A shallow embedding of [chunk], [BaseQuery] (worker pool, [_consume],
    [get], [post]) and of the batched query methods of [Series], [Updates]
    and [Search], followed by the properties checked against it.

    Threads are modelled by interleaving: every thread is a small state
    machine whose states are the program points between two operations on
    the shared queues, and a schedule (a list of thread names) picks which
    thread performs its next operation.  A thread that is blocked
    ([Queue.get] on an empty queue, [Queue.join] with unfinished tasks)
    stutters. *)

From Stdlib Require Import ZArith String List Lia Permutation.
From stdpp Require Import base list gmap strings.

Set Warnings "-register-all".

Local Open Scope string_scope.
Local Open Scope list_scope.
Local Open Scope Z_scope.

(** ** Python values and exceptions *)

Module Py.

(** The values that flow through the module: keyword arguments, job
    parameters and decoded JSON payloads. A decoded JSON object keeps its
    members in an association list. *)
Inductive val :=
| None_
| Bool (b : bool)
| Int (z : Z)
| Str (s : string)
| List (l : list val)
| Dict (d : list (string * val)).

Inductive exn :=
| AssertionError (msg : string)
| NameError (name : string)
| UnboundLocalError (name : string)
| KeyError (key : string)
| TypeError
| ValueError
| AttributeError
| HTTPError
| ConnectionError.

(** A computation that returns or raises. *)
Definition result (A : Type) : Type := exn + A.
Definition ret {A} (a : A) : result A := inr a.
Definition raise {A} (e : exn) : result A := inl e.
Definition bind {A B} (m : result A) (k : A → result B) : result B :=
  match m with
  | inl e => inl e
  | inr a => k a
  end.

(** [range(start, stop, step)]: the loop [i = start; while i < stop]
    (or [i > stop] for a negative step) unrolled [fuel] times. *)
Fixpoint range_from (fuel : nat) (i stop step : Z) : list Z :=
  match fuel with
  | O => []
  | S fuel' =>
      if (if 0 <? step then i <? stop else stop <? i)
      then i :: range_from fuel' (i + step) stop step
      else []
  end.

Definition range3 (start stop step : Z) : result (list Z) :=
  if step =? 0 then raise ValueError
  else ret (range_from (Z.to_nat (Z.abs (stop - start))) start stop step).

(** [range(n)] *)
Definition range (n : Z) : list Z :=
  range_from (Z.to_nat n) 0 n 1.

(** A slice bound is clamped to the list, a negative one counting from
    the end. *)
Definition clamp (len i : Z) : Z :=
  if i <? 0 then Z.max 0 (i + len) else Z.min i len.

(** [l[lo:hi]] *)
Definition slice {A} (l : list A) (lo hi : Z) : list A :=
  let len := Z.of_nat (length l) in
  let a := clamp len lo in
  let b := clamp len hi in
  take (Z.to_nat (b - a)) (drop (Z.to_nat a) l).

(** [sep.join(l)] *)
Fixpoint join (sep : string) (l : list string) : string :=
  match l with
  | [] => ""
  | [s] => s
  | s :: rest => String.append s (String.append sep (join sep rest))
  end.

(** [d[key]] *)
Fixpoint assoc (key : string) (d : list (string * val)) : option val :=
  match d with
  | [] => None
  | (k, v) :: rest => if String.eqb k key then Some v else assoc key rest
  end.

Definition getitem (d : val) (key : string) : result val :=
  match d with
  | Dict m => match assoc key m with
              | Some v => ret v
              | None => raise (KeyError key)
              end
  | _ => raise TypeError
  end.

(** [key in s] for two strings: [key] occurs somewhere in [s]. *)
Fixpoint occurs (key s : string) : bool :=
  String.prefix key s ||
  match s with
  | EmptyString => false
  | String _ s' => occurs key s'
  end.

(** [key in d] *)
Definition contains (d : val) (key : string) : result bool :=
  match d with
  | Dict m => ret (match assoc key m with Some _ => true | None => false end)
  | List l => ret (existsb (λ v, match v with
                                 | Str s => String.eqb s key
                                 | _ => false
                                 end) l)
  | Str s => ret (occurs key s)
  | _ => raise TypeError
  end.

(** Iterating over a value in a [for] clause. *)
Fixpoint chars (s : string) : list val :=
  match s with
  | EmptyString => []
  | String c s' => Str (String c EmptyString) :: chars s'
  end.

Definition iter (v : val) : result (list val) :=
  match v with
  | List l => ret l
  | Str s => ret (chars s)
  | Dict m => ret (map (λ kv, Str (fst kv)) m)
  | _ => raise TypeError
  end.

(** [enumerate(l)] *)
Fixpoint enumerate_from {A} (i : Z) (l : list A) : list (Z * A) :=
  match l with
  | [] => []
  | x :: l' => (i, x) :: enumerate_from (i + 1) l'
  end.

Definition enumerate {A} (l : list A) : list (Z * A) := enumerate_from 0 l.

(** [[s for d in output for s in d[k] if k in d]]: the subscript is
    evaluated for every [d], before the condition. *)
Fixpoint flatten_key (k : string) (output : list val) : result (list val) :=
  match output with
  | [] => ret []
  | d :: rest =>
      bind (getitem d k) (λ inner,
      bind (iter inner) (λ items,
      bind (contains d k) (λ keep,
      bind (flatten_key k rest) (λ tail,
      ret ((if keep then items else []) ++ tail)))))
  end.

(** [[i for chunk in output for i in chunk]] *)
Fixpoint flatten (output : list val) : result (list val) :=
  match output with
  | [] => ret []
  | c :: rest =>
      bind (iter c) (λ items,
      bind (flatten rest) (λ tail, ret (items ++ tail)))
  end.

(** [a == b] for the comparisons the module makes: against an integer
    and against a string literal. *)
Definition eq_int (a : val) (z : Z) : bool :=
  match a with
  | Int x => x =? z
  | Bool b => (if b then 1 else 0) =? z
  | _ => false
  end.

Definition eq_str (a : val) (s : string) : bool :=
  match a with
  | Str x => String.eqb x s
  | _ => false
  end.

Definition as_int (v : val) : result Z :=
  match v with
  | Int z => ret z
  | Bool b => ret (if b then 1 else 0)
  | _ => raise TypeError
  end.

(** [int(np.ceil(n / d))] for a positive [d]; the float quotient is taken
    as the exact one, which it is as long as [n] is below 2^53. *)
Definition ceil_div (n d : Z) : Z := - ((- n) / d).

End Py.

(** ** [chunk] *)

(** [for i in range(0, len(l), n): yield l[i:i + n]], the generator run to
    exhaustion. *)
Definition chunk {A} (l : list A) (n : Z) : Py.result (list (list A)) :=
  Py.bind (Py.range3 0 (Z.of_nat (length l)) n)
          (λ starts, Py.ret (map (λ i, Py.slice l i (i + n)) starts)).

(** ** The outside world: HTTP transport and pandas *)

(** What [requests.get] / [requests.post] hand back: whether
    [raise_for_status] passes, and what [r.json()] decodes to ([None] when
    the body is not JSON). *)
Record response := { ok : bool; json : option Py.val }.

(** The external collaborators. A transport call that yields [None] raised
    instead of returning a response (connection failure). *)
Record world := {
  requests_get : string → gmap string Py.val → option response;
  requests_post : string → gmap string Py.val → gmap string Py.val → option response;
  to_datetime : Py.val → Py.result Py.val;
  strftime : Py.val → string → Py.result string
}.

(** ** Sequential code: a heap of dict objects, a trace of effects, and
    exceptions *)

(** What a thread does to the world outside its own variables. *)
Inductive event (Job : Type) :=
| Get (url : string) (params : gmap string Py.val)
| Post (url : string) (params data : gmap string Py.val)
| Put (job : Job).
Arguments Get {Job} url params.
Arguments Post {Job} url params data.
Arguments Put {Job} job.

Module Seq.
Section Seq.
Context {Job : Type}.

(** Dict objects live in a heap and are named by their address, so that
    two variables can name the same dict. *)
Definition M (A : Type) : Type :=
  gmap nat (gmap string Py.val) →
  gmap nat (gmap string Py.val) * list (event Job) * Py.result A.

Definition ret {A} (a : A) : M A := λ h, (h, [], inr a).
Definition raise {A} (e : Py.exn) : M A := λ h, (h, [], inl e).
Definition lift {A} (r : Py.result A) : M A := λ h, (h, [], r).
Definition emit (ev : event Job) : M unit := λ h, (h, [ev], inr tt).

Definition bind {A B} (m : M A) (k : A → M B) : M B :=
  λ h, match m h with
       | (h1, t1, inl e) => (h1, t1, inl e)
       | (h1, t1, inr a) =>
           match k a h1 with
           | (h2, t2, r) => (h2, t1 ++ t2, r)
           end
       end.

(** [for x in xs: s = body(x, s)] *)
Fixpoint for_ {X S} (xs : list X) (s : S) (body : X → S → M S) : M S :=
  match xs with
  | [] => ret s
  | x :: xs' => bind (body x s) (λ s', for_ xs' s' body)
  end.

(** [{...}]: a new dict object *)
Definition dict_new (d : gmap string Py.val) : M nat :=
  λ h, let l := fresh (dom h) in (<[l := d]> h, [], inr l).

(** reading the dict at [l] *)
Definition dict_read (l : nat) : M (gmap string Py.val) :=
  λ h, (h, [], inr (default ∅ (h !! l))).

(** [dict(l)]: a new dict object with the same items *)
Definition dict_copy (l : nat) : M nat :=
  bind (dict_read l) dict_new.

(** [l.update(kwargs)], in place *)
Definition dict_update (l : nat) (kwargs : gmap string Py.val) : M unit :=
  λ h, (<[l := kwargs ∪ default ∅ (h !! l)]> h, [], inr tt).

End Seq.
End Seq.

Declare Scope seq_scope.
Delimit Scope seq_scope with seq.
Notation "'let*' x ':=' m 'in' k" := (Seq.bind m (λ x, k))
  (at level 10, x name, m at level 100, k at level 200) : seq_scope.

(** ** The worker pool and its caller *)

(** The names a schedule is made of. *)
Inductive thread :=
| Caller
| Consumer (n : nat).

Module Engine.
Section Engine.
Context {Job Result Out : Type}.

(** A consumer thread, by the line of [_consume] it is about to run. *)
Inductive consumer :=
| AtGet                      (* job = self.queue.get() *)
| AtParse (job : Job)        (* result = self.parse(job) *)
| AtPut (result : Result)    (* self.results.put(result) *)
| AtWarn (e : Py.exn)        (* except Exception as e: warn(e) *)
| AtTaskDone                 (* self.queue.task_done() *)
| Terminated (e : Py.exn).   (* an exception left the thread's target *)

(** [self.queue] with its count of unfinished tasks, [self.results] and
    [self.consumers]. *)
Record pool := {
  queue : list Job;
  unfinished_tasks : nat;
  results : list Result;
  consumers : list consumer
}.

(** The thread that called a query method, by the operation it is about
    to perform on the pool. [count] is the value of the [range(...)]
    argument of the collecting comprehension, or the exception its
    evaluation raises. *)
Inductive caller :=
| Putting (pending : list Job) (next : caller)
                                         (* self.queue.put(..), in a loop *)
| Joining (count : Py.result Z)          (* self.queue.join() *)
| Collecting (remaining : nat) (output : list Result)
                                         (* [self.results.get() for _ in range(..)] *)
| Reducing (output : list Result)        (* the returned comprehension *)
| Returned (v : Out)
| Raised (e : Py.exn).

Record system := { main : caller; self_pool : pool }.

Variable parse : Job → Py.result Result.
Variable reduce : list Result → Py.result Out.

(** One operation of a consumer running [_consume]. The name [warn] is
    bound nowhere in the module, so the handler itself raises
    [NameError], which ends the thread before [task_done]. *)
Definition _consume (c : consumer) (p : pool) : consumer * pool :=
  match c with
  | AtGet =>
      match queue p with
      | [] => (AtGet, p)
      | job :: rest =>
          (AtParse job,
           {| queue := rest; unfinished_tasks := unfinished_tasks p;
              results := results p; consumers := consumers p |})
      end
  | AtParse job =>
      match parse job with
      | inr result => (AtPut result, p)
      | inl e => (AtWarn e, p)
      end
  | AtPut result =>
      (AtTaskDone,
       {| queue := queue p; unfinished_tasks := unfinished_tasks p;
          results := results p ++ [result]; consumers := consumers p |})
  | AtWarn e => (Terminated (Py.NameError "warn"), p)
  | AtTaskDone =>
      match unfinished_tasks p with
      | O => (Terminated Py.ValueError, p)
      | S n =>
          (AtGet,
           {| queue := queue p; unfinished_tasks := n;
              results := results p; consumers := consumers p |})
      end
  | Terminated e => (Terminated e, p)
  end.

(** One operation of the calling thread. *)
Definition caller_step (s : system) : system :=
  let p := self_pool s in
  match main s with
  | Putting [] next => {| main := next; self_pool := p |}
  | Putting (job :: rest) next =>
      {| main := Putting rest next;
         self_pool := {| queue := queue p ++ [job];
                         unfinished_tasks := S (unfinished_tasks p);
                         results := results p; consumers := consumers p |} |}
  | Joining count =>
      match unfinished_tasks p with
      | O => match count with
             | inl e => {| main := Raised e; self_pool := p |}
             | inr n => {| main := Collecting (length (Py.range n)) [];
                           self_pool := p |}
             end
      | S _ => s
      end
  | Collecting O output => {| main := Reducing output; self_pool := p |}
  | Collecting (S n) output =>
      match results p with
      | [] => s
      | r :: rest =>
          {| main := Collecting n (output ++ [r]);
             self_pool := {| queue := queue p;
                             unfinished_tasks := unfinished_tasks p;
                             results := rest; consumers := consumers p |} |}
      end
  | Reducing output =>
      match reduce output with
      | inr v => {| main := Returned v; self_pool := p |}
      | inl e => {| main := Raised e; self_pool := p |}
      end
  | Returned v => s
  | Raised e => s
  end.

Definition consumer_step (n : nat) (s : system) : system :=
  let p := self_pool s in
  match consumers p !! n with
  | None => s
  | Some c =>
      match _consume c p with
      | (c', p') =>
          {| main := main s;
             self_pool := {| queue := queue p';
                             unfinished_tasks := unfinished_tasks p';
                             results := results p';
                             consumers := <[n := c']> (consumers p') |} |}
      end
  end.

Definition step (t : thread) (s : system) : system :=
  match t with
  | Caller => caller_step s
  | Consumer n => consumer_step n s
  end.

Definition run (sched : list thread) (s : system) : system :=
  fold_left (λ s t, step t s) sched s.

(** What a query method has worked out when it reaches [queue.join()],
    returns without a batch, or raises: the calling thread puts the jobs
    of the [Put] events, in order, and goes on from there. *)
Inductive planned :=
| Batch (count : Py.result Z)
| Direct (v : Out).

Fixpoint puts (t : list (event Job)) : list Job :=
  match t with
  | [] => []
  | Put job :: t' => job :: puts t'
  | _ :: t' => puts t'
  end.

Definition start (t : list (event Job)) (r : Py.result planned) (p : pool)
  : system :=
  {| main := Putting (puts t)
               match r with
               | inr (Batch count) => Joining count
               | inr (Direct v) => Returned v
               | inl e => Raised e
               end;
     self_pool := p |}.



End Engine.

Arguments consumer : clear implicits.
Arguments pool : clear implicits.
Arguments caller : clear implicits.
Arguments system : clear implicits.
Arguments planned : clear implicits.

End Engine.

(** ** [BaseQuery] *)

Module BaseQuery.

Definition host : string := "https://api.eia.gov".

(** What a subclass fixes: its [endpoint], and whether it defines
    [parse]. *)
Record class := { endpoint : string; has_parse : bool }.

(** The attributes every instance has. [default_params] names a dict
    object in the heap. *)
Record instance := {
  api_key : string;
  default_params : nat;
  base_url : string
}.

(** [urljoin(host, endpoint)] for a host without a path and a relative
    endpoint, which is all the module joins. *)
Definition urljoin (base url : string) : string :=
  if String.eqb url "" then base
  else String.append base (String.append "/" url).

Section Init.
Context {Job Result : Type}.

(** The pool exists only [if hasattr(self, 'parse')]; each started
    thread blocks in its first [queue.get()]. *)
Definition __init__ (cls : class) (key output : string) (consumers : Z)
  : Seq.M (Job := Job) (instance * option (Engine.pool Job Result)) :=
  (let* d := Seq.dict_new {[ "api_key" := Py.Str key; "out" := Py.Str output ]} in
   let self := {| api_key := key; default_params := d;
                  base_url := urljoin host (endpoint cls) |} in
   if has_parse cls then
     Seq.ret (self,
              Some {| Engine.queue := [];
                      Engine.unfinished_tasks := O;
                      Engine.results := [];
                      Engine.consumers :=
                        fold_left (λ cs _, cs ++ [Engine.AtGet])
                                  (Py.range consumers) [] |})
   else Seq.ret (self, None))%seq.
End Init.

Section Requests.
Context {Job : Type}.
Variable W : world.

Definition http_get (url : string) (params : gmap string Py.val)
  : Seq.M (Job := Job) response :=
  (let* _ := Seq.emit (Get url params) in
   match requests_get W url params with
   | Some r => Seq.ret r
   | None => Seq.raise Py.ConnectionError
   end)%seq.

Definition http_post (url : string) (params data : gmap string Py.val)
  : Seq.M (Job := Job) response :=
  (let* _ := Seq.emit (Post url params data) in
   match requests_post W url params data with
   | Some r => Seq.ret r
   | None => Seq.raise Py.ConnectionError
   end)%seq.

(** [r.raise_for_status(); return r.json()] *)
Definition checked_json (r : response) : Py.result Py.val :=
  if ok r then
    match json r with
    | Some v => Py.ret v
    | None => Py.raise Py.ValueError
    end
  else Py.raise Py.HTTPError.

Definition get (self : instance) (kwargs : gmap string Py.val)
  : Seq.M (Job := Job) Py.val :=
  (let* params := Seq.dict_copy (default_params self) in
   let* _ := Seq.dict_update params kwargs in
   let* sent := Seq.dict_read params in
   let* r := http_get (base_url self) sent in
   Seq.lift (checked_json r))%seq.

(** The [try] covers only what follows the request; its handler prints
    and falls through, so the method returns [None]. *)
Definition post (self : instance) (data : gmap string Py.val)
  : Seq.M (Job := Job) Py.val :=
  (let* sent := Seq.dict_read (default_params self) in
   let* r := http_post (base_url self) sent data in
   match checked_json r with
   | inr v => Seq.ret v
   | inl _ => Seq.ret Py.None_
   end)%seq.

(** What a consumer sees of a [parse] method: its result or the
    exception it raises. *)
Definition outcome {A} (m : Seq.M (Job := Job) A)
           (h : gmap nat (gmap string Py.val)) : Py.result A :=
  snd (m h).

End Requests.

End BaseQuery.

(** ** [Series] *)

Module Series.

Definition cls : BaseQuery.class :=
  {| BaseQuery.endpoint := "series/"; BaseQuery.has_parse := true |}.

Section Series.
Variable W : world.
Variable self : BaseQuery.instance.

Definition parse (value : string) : Seq.M (Job := string) Py.val :=
  BaseQuery.post W self {[ "series_id" := Py.Str value ]}.

(** The loop of [query]; [i] stays unbound when it runs no iteration. *)
Definition plan (series_ids : list string)
  : Seq.M (Job := string) (Engine.planned Py.val) :=
  (let* chunks := Seq.lift (chunk series_ids 100) in
   let* i := Seq.for_ (Py.enumerate chunks) None
               (λ iC _, let* _ := Seq.emit (Put (Py.join ";" (snd iC))) in
                        Seq.ret (Some (fst iC))) in
   Seq.ret (Engine.Batch
              match i with
              | Some i => Py.ret (i + 1)
              | None => Py.raise (Py.UnboundLocalError "i")
              end))%seq.

Definition reduce (output : list Py.val) : Py.result Py.val :=
  Py.bind (Py.flatten_key "series" output) (λ l, Py.ret (Py.List l)).

(** The calling thread at the start of [query], given the ids. *)
Definition query (p : Engine.pool string Py.val) (series_ids : list string)
           (h : gmap nat (gmap string Py.val))
  : Engine.system string Py.val Py.val :=
  match plan series_ids h with
  | (_, t, r) => Engine.start t r p
  end.

Definition run (h : gmap nat (gmap string Py.val)) (sched : list thread)
           (s : Engine.system string Py.val Py.val)
  : Engine.system string Py.val Py.val :=
  Engine.run (λ job, BaseQuery.outcome (parse job) h) reduce sched s.

End Series.

End Series.

(** ** [Updates] *)

Module Updates.

Definition cls : BaseQuery.class :=
  {| BaseQuery.endpoint := "updates/"; BaseQuery.has_parse := true |}.

Section Updates.
Variable W : world.
Variable self : BaseQuery.instance.

Definition parse (page_params : gmap string Py.val)
  : Seq.M (Job := gmap string Py.val) Py.val :=
  BaseQuery.get W self page_params.

(** The body of the paging loop; the loop carries [rows], which the
    clipping branch reassigns, and the last value of [page]. *)
Definition page_body (params : gmap string Py.val) (page : Z)
           (st : Z * option Z)
  : Seq.M (Job := gmap string Py.val) (Z * option Z) :=
  let rows := fst st in
  let page_params := params in
  let first := page * 10000 in
  let page_params := <[ "firstrow" := Py.Int first ]> page_params in
  if first + 10000 >? rows then
    let rows := rows - first in
    let page_params := <[ "rows" := Py.Int rows ]> page_params in
    (let* _ := Seq.emit (Put page_params) in
     Seq.ret (rows, Some page))%seq
  else
    (let* _ := Seq.emit (Put page_params) in
     Seq.ret (rows, Some page))%seq.

Definition plan (category_id : Py.val) (rows firstrow : Z) (deep : Py.val)
  : Seq.M (Job := gmap string Py.val) (Engine.planned Py.val) :=
  (let* poll := BaseQuery.get W self
                  {[ "category_id" := category_id; "deep" := deep;
                     "rows" := Py.Int 1; "firstrow" := Py.Int 0 ]} in
   let* n := (if rows =? 0
              then Seq.lift (Py.bind (Py.getitem poll "data") (λ d,
                             Py.bind (Py.getitem d "rows_available")
                                     Py.as_int))
              else Seq.ret rows) in
   let params : gmap string Py.val :=
     {[ "category_id" := category_id; "deep" := deep;
        "rows" := Py.Int 10000 ]} in
   let* st := Seq.for_ (Py.range (Py.ceil_div n 10000)) (rows, None)
                (page_body params) in
   Seq.ret (Engine.Batch
              match snd st with
              | Some page => Py.ret (page + 1)
              | None => Py.raise (Py.UnboundLocalError "page")
              end))%seq.

Definition reduce (output : list Py.val) : Py.result Py.val :=
  Py.bind (Py.flatten_key "updates" output) (λ l, Py.ret (Py.List l)).

Definition query (p : Engine.pool (gmap string Py.val) Py.val)
           (category_id : Py.val) (rows firstrow : Z) (deep : Py.val)
           (h : gmap nat (gmap string Py.val))
  : Engine.system (gmap string Py.val) Py.val Py.val :=
  match plan category_id rows firstrow deep h with
  | (_, t, r) => Engine.start t r p
  end.

Definition run (h : gmap nat (gmap string Py.val)) (sched : list thread)
           (s : Engine.system (gmap string Py.val) Py.val Py.val)
  : Engine.system (gmap string Py.val) Py.val Py.val :=
  Engine.run (λ job, BaseQuery.outcome (parse job) h) reduce sched s.

End Updates.

End Updates.

(** ** [Search] *)

Module Search.

Definition cls : BaseQuery.class :=
  {| BaseQuery.endpoint := "search/"; BaseQuery.has_parse := true |}.

Definition dquote : string := String (Ascii.ascii_of_nat 34) EmptyString.

(** [s.strip(q)] for a one-character [q] *)
Fixpoint lstrip (q : Ascii.ascii) (s : string) : string :=
  match s with
  | String c s' => if Ascii.eqb c q then lstrip q s' else s
  | EmptyString => EmptyString
  end.

Fixpoint rstrip (q : Ascii.ascii) (s : string) : string :=
  match s with
  | String c s' =>
      match rstrip q s' with
      | EmptyString => if Ascii.eqb c q then EmptyString
                       else String c EmptyString
      | t => String c t
      end
  | EmptyString => EmptyString
  end.

Definition strip (q : Ascii.ascii) (s : string) : string :=
  rstrip q (lstrip q s).

(** ['"{}"'.format(v)] *)
Definition quoted (s : string) : string :=
  String.append dquote (String.append s dquote).

(** [re.match(re.escape(p), v)]: the escaped pattern matches [p] itself,
    character by character, at the start of [v]. *)
Definition match_escaped (p v : string) : bool := String.prefix p v.

Definition valid_terms : list string := ["series_id"; "name"; "last_updated"].

(** [t in [...]] for a list of strings *)
Definition term_in (t : Py.val) (l : list string) : bool :=
  existsb (Py.eq_str t) l.

Fixpoint map_result {A B} (f : A → Py.result B) (l : list A)
  : Py.result (list B) :=
  match l with
  | [] => Py.ret []
  | x :: l' => Py.bind (f x) (λ y,
               Py.bind (map_result f l') (λ ys, Py.ret (y :: ys)))
  end.

Section Search.
Variable W : world.
Variable self : BaseQuery.instance.

Definition clean_search_params (search_term search_value : Py.val)
  : Py.result (Py.val * Py.val) :=
  let t := search_term in
  let v := search_value in
  if negb (term_in t valid_terms)
  then Py.raise (Py.AssertionError "Invalid search term")
  else if term_in t ["series_id"; "name"] then
    match v with
    | Py.Str s =>
        let pattern :=
          String.append "^" (String.append (quoted (strip (Ascii.ascii_of_nat 34) s)) "$") in
        if negb (match_escaped pattern s)
        then Py.ret (t, Py.Str (quoted s))
        else Py.ret (t, v)
    | _ => Py.raise Py.AttributeError
    end
  else
    Py.bind (Py.iter v) (λ items,
    if (length items =? 2)%nat then
      Py.bind (map_result (to_datetime W) items) (λ daterange,
      Py.bind (map_result (λ x, strftime W x "%Y-%m-%dT%H:%M:%SZ") daterange)
              (λ strfdaterange,
      Py.ret (t, Py.Str (String.append "["
                           (String.append (Py.join " TO " strfdaterange) "]")))))
    else Py.ret (t, v)).

Definition parse (val : gmap string Py.val)
  : Seq.M (Job := gmap string Py.val) Py.val :=
  (let* r := BaseQuery.get W self val in
   Seq.lift (Py.bind (Py.getitem r "response") (λ resp,
             Py.getitem resp "docs")))%seq.

(** The body of the paging loop of the fetch-all branch. *)
Definition page_body (params : gmap string Py.val) (total chunksize : Z)
           (page : Z) (_ : unit)
  : Seq.M (Job := gmap string Py.val) unit :=
  let rows := chunksize in
  let first := page * rows in
  let rows := if first + rows >? total then total - first else rows in
  let page_params := params in
  let page_params :=
    <[ "rows_per_page" := Py.Int rows ]>
      (<[ "page_num" := Py.Int page ]> page_params) in
  Seq.emit (Put page_params).

Definition plan (search_term search_value rows_per_page page_num : Py.val)
  : Seq.M (Job := gmap string Py.val) (Engine.planned Py.val) :=
  (let* tv := Seq.lift (clean_search_params search_term search_value) in
   let t := fst tv in
   let v := snd tv in
   if Py.eq_int rows_per_page 0 || Py.eq_str rows_per_page "all" then
     let* r := BaseQuery.get W self
                 {[ "search_term" := t; "search_value" := v;
                    "page_num" := Py.Int 1; "rows_per_page" := Py.Int 1 ]} in
     let* total := Seq.lift (Py.bind (Py.getitem r "response") (λ resp,
                             Py.bind (Py.getitem resp "numFound")
                                     Py.as_int)) in
     let chunksize := 7500 in
     let pages := Py.ceil_div total chunksize in
     let params : gmap string Py.val :=
       {[ "search_term" := t; "search_value" := v ]} in
     let* _ := Seq.for_ (Py.range pages) tt
                 (page_body params total chunksize) in
     Seq.ret (Engine.Batch (Py.ret pages))
   else
     let* r := BaseQuery.get W self
                 {[ "search_term" := t; "search_value" := v;
                    "page_num" := page_num;
                    "rows_per_page" := rows_per_page ]} in
     let* docs := Seq.lift (Py.bind (Py.getitem r "response") (λ resp,
                            Py.getitem resp "docs")) in
     Seq.ret (Engine.Direct docs))%seq.

Definition reduce (output : list Py.val) : Py.result Py.val :=
  Py.bind (Py.flatten output) (λ l, Py.ret (Py.List l)).

Definition query (p : Engine.pool (gmap string Py.val) Py.val)
           (search_term search_value rows_per_page page_num : Py.val)
           (h : gmap nat (gmap string Py.val))
  : Engine.system (gmap string Py.val) Py.val Py.val :=
  match plan search_term search_value rows_per_page page_num h with
  | (_, t, r) => Engine.start t r p
  end.

Definition run (h : gmap nat (gmap string Py.val)) (sched : list thread)
           (s : Engine.system (gmap string Py.val) Py.val Py.val)
  : Engine.system (gmap string Py.val) Py.val Py.val :=
  Engine.run (λ job, BaseQuery.outcome (parse job) h) reduce sched s.

End Search.

End Search.

(** ** [Geoset]: a query class without [parse] *)

Module Geoset.

Definition cls : BaseQuery.class :=
  {| BaseQuery.endpoint := "geoset/"; BaseQuery.has_parse := false |}.

Section Geoset.
Variable W : world.
Variable self : BaseQuery.instance.

(** [geoset_id] and [regions] are passed to [get] by keyword next to
    [**kwargs]: a keyword argument of the caller with one of these names
    makes the call raise [TypeError]. *)
Definition query (geoset_id : string) (regions : list string)
           (kwargs : gmap string Py.val) : Seq.M (Job := unit) Py.val :=
  match kwargs !! "geoset_id", kwargs !! "regions" with
  | None, None =>
      (let* data := BaseQuery.get W self
                      (<[ "geoset_id" := Py.Str geoset_id ]>
                         (<[ "regions" := Py.Str (Py.join "," regions) ]>
                            kwargs)) in
       Seq.lift (Py.getitem data "geoset"))%seq
  | _, _ => Seq.raise Py.TypeError
  end.

End Geoset.

End Geoset.

(** ** [Category] *)

Module Category.

Definition cls : BaseQuery.class :=
  {| BaseQuery.endpoint := "category/"; BaseQuery.has_parse := false |}.

Section Category.
Variable W : world.
Variable self : BaseQuery.instance.

(** [category_id] is a parameter of the method, so [kwargs] cannot hold a
    key of that name. *)
Definition query (category_id : Py.val) (kwargs : gmap string Py.val)
  : Seq.M (Job := unit) Py.val :=
  match kwargs !! "category_id" with
  | None =>
      (let* data := BaseQuery.get W self
                      (<[ "category_id" := category_id ]> kwargs) in
       Seq.lift (Py.getitem data "category"))%seq
  | Some _ => Seq.raise Py.TypeError
  end.

End Category.

End Category.

(** ** [SeriesCategory] *)

Module SeriesCategory.

Definition cls : BaseQuery.class :=
  {| BaseQuery.endpoint := "series/categories/";
     BaseQuery.has_parse := true |}.

Section SeriesCategory.
Variable W : world.
Variable self : BaseQuery.instance.

Definition parse (value : string) : Seq.M (Job := string) Py.val :=
  BaseQuery.post W self {[ "series_id" := Py.Str value ]}.

Definition plan (series_ids : list string)
  : Seq.M (Job := string) (Engine.planned Py.val) :=
  (let* chunks := Seq.lift (chunk series_ids 100) in
   let* i := Seq.for_ (Py.enumerate chunks) None
               (λ iC _, let* _ := Seq.emit (Put (Py.join ";" (snd iC))) in
                        Seq.ret (Some (fst iC))) in
   Seq.ret (Engine.Batch
              match i with
              | Some i => Py.ret (i + 1)
              | None => Py.raise (Py.UnboundLocalError "i")
              end))%seq.

Definition reduce (output : list Py.val) : Py.result Py.val :=
  let k := "series_categories" in
  Py.bind (Py.flatten_key k output) (λ l, Py.ret (Py.List l)).

Definition query (p : Engine.pool string Py.val) (series_ids : list string)
           (h : gmap nat (gmap string Py.val))
  : Engine.system string Py.val Py.val :=
  match plan series_ids h with
  | (_, t, r) => Engine.start t r p
  end.

Definition run (h : gmap nat (gmap string Py.val)) (sched : list thread)
           (s : Engine.system string Py.val Py.val)
  : Engine.system string Py.val Py.val :=
  Engine.run (λ job, BaseQuery.outcome (parse job) h) reduce sched s.

End SeriesCategory.

End SeriesCategory.

(** ** Notions the statements below are phrased in *)

(** The jobs a loop puts when its body puts one job per iteration: [f] is
    the job put at an element in a loop state, [g] the next loop state. *)
Fixpoint loop_jobs {Job X S} (f : X → S → Job) (g : X → S → S)
         (xs : list X) (s : S) : list Job :=
  match xs with
  | [] => []
  | x :: xs' => f x s :: loop_jobs f g xs' (g x s)
  end.






(** ** Accounting for jobs and results across the threads *)

Section Ledger.
Context {Job Result Out : Type}.
Variable parse : Job → Py.result Result.
Variable reduce : list Result → Py.result Out.

(** The result a job leads to, if [parse] returns for it. *)
Definition success (job : Job) : list Result :=
  match parse job with
  | inr r => [r]
  | inl _ => []
  end.

(** The job a consumer has in hand, the result it is about to put, and
    the task of the queue it has taken and not yet marked done. *)
Definition held (c : Engine.consumer Job Result) : list Job :=
  match c with
  | Engine.AtParse job => [job]
  | _ => []
  end.

Definition putting (c : Engine.consumer Job Result) : list Result :=
  match c with
  | Engine.AtPut r => [r]
  | _ => []
  end.

Definition owing (c : Engine.consumer Job Result) : list unit :=
  match c with
  | Engine.AtGet => []
  | _ => [tt]
  end.

(** The jobs the caller has still to put. *)
Definition pending (m : Engine.caller Job Result Out) : list Job :=
  match m with
  | Engine.Putting js _ => js
  | _ => []
  end.

(** Every result that exists or can still come to exist: those the
    caller has collected, those in [self.results], those about to be
    put, and those of the jobs in hand, queued or still to be put. *)
Definition ledger (collected : list Result)
           (s : Engine.system Job Result Out) : list Result :=
  let p := Engine.self_pool s in
  collected ++ Engine.results p
  ++ flat_map putting (Engine.consumers p)
  ++ flat_map success (flat_map held (Engine.consumers p)
                       ++ Engine.queue p ++ pending (Engine.main s)).

(** Where the caller of a batch of [n] jobs can be, and what it has
    collected there. *)
Definition caller_ok (n : nat) (m : Engine.caller Job Result Out)
           (collected : list Result) : Prop :=
  match m with
  | Engine.Putting _ (Engine.Joining count) =>
      count = inr (Z.of_nat n) ∧ collected = []
  | Engine.Putting _ _ => False
  | Engine.Joining count => count = inr (Z.of_nat n) ∧ collected = []
  | Engine.Collecting k out => collected = out ∧ (k + length out = n)%nat
  | Engine.Reducing out => collected = out ∧ length out = n
  | Engine.Returned v => length collected = n ∧ reduce collected = inr v
  | Engine.Raised e => length collected = n ∧ reduce collected = inl e
  end.

(** What every state of a batch of [jobs] satisfies. *)
Definition invariant (jobs : list Job) (s : Engine.system Job Result Out)
  : Prop :=
  let p := Engine.self_pool s in
  ∃ collected,
    caller_ok (length jobs) (Engine.main s) collected
    ∧ Engine.unfinished_tasks p
      = (length (Engine.queue p)
         + length (flat_map owing (Engine.consumers p)))%nat
    ∧ flat_map success jobs ≡ₚ ledger collected s.

(** The results recorded so far: those the caller has taken from
    [self.results] and those still in it. *)
Definition recorded (s : Engine.system Job Result Out) : list Result :=
  match Engine.main s with
  | Engine.Collecting _ out => out
  | Engine.Reducing out => out
  | _ => []
  end ++ Engine.results (Engine.self_pool s).

(** The query method has returned or raised. *)
Definition finished (m : Engine.caller Job Result Out) : Prop :=
  match m with
  | Engine.Returned _ => True
  | Engine.Raised _ => True
  | _ => False
  end.

(** A batch of [jobs] as a query method submits it to a pool of [c] idle
    consumers. *)
Definition batch (c : nat) (jobs : list Job)
  : Engine.system Job Result Out :=
  {| Engine.main :=
       Engine.Putting jobs
         (Engine.Joining (inr (Z.of_nat (length jobs))));
     Engine.self_pool :=
       {| Engine.queue := []; Engine.unfinished_tasks := O;
          Engine.results := [];
          Engine.consumers := repeat Engine.AtGet c |} |}.

End Ledger.

(** The operations of the calling thread in a schedule. *)
Fixpoint caller_steps (sched : list thread) : nat :=
  match sched with
  | [] => O
  | Caller :: sched' => S (caller_steps sched')
  | Consumer _ :: sched' => caller_steps sched'
  end.

(** The schedule in which the caller puts its [n] jobs and reaches
    [join], the first consumer then takes every job through its four
    operations, and the caller collects the [n] results. *)
Definition one_by_one (n : nat) : list thread :=
  repeat Caller (S n)
  ++ concat (repeat [Consumer 0; Consumer 0; Consumer 0; Consumer 0] n)
  ++ repeat Caller (S (S n)).

(** The caller is past [self.queue.join()]. *)
Definition past_join {Job Result Out} (m : Engine.caller Job Result Out)
  : Prop :=
  match m with
  | Engine.Putting _ _ => False
  | Engine.Joining _ => False
  | _ => True
  end.

(** A consumer thread that is still running its loop. *)
Definition alive {Job Result} (c : Engine.consumer Job Result) : Prop :=
  match c with
  | Engine.AtWarn _ => False
  | Engine.Terminated _ => False
  | _ => True
  end.

(** Past [join] no task is unfinished. *)
Definition settled {Job Result Out} (s : Engine.system Job Result Out)
  : Prop :=
  past_join (Engine.main s) →
  Engine.unfinished_tasks (Engine.self_pool s) = O.

(** One mark for a job whose [parse] raises, and one for a consumer that
    has caught such an exception. *)
Definition failure {Job Result} (parse : Job → Py.result Result) (job : Job)
  : list unit :=
  match parse job with
  | inl _ => [tt]
  | inr _ => []
  end.

Definition failed {Job Result} (c : Engine.consumer Job Result) : list unit :=
  match c with
  | Engine.AtWarn _ => [tt]
  | Engine.Terminated _ => [tt]
  | _ => []
  end.

(** Every job whose [parse] raises is still to be handled, or has taken a
    consumer with it. *)
Definition failures_accounted {Job Result Out}
           (parse : Job → Py.result Result) (jobs : list Job)
           (s : Engine.system Job Result Out) : Prop :=
  let p := Engine.self_pool s in
  length (flat_map (failure parse) jobs)
  = (length (flat_map failed (Engine.consumers p))
     + length (flat_map (failure parse)
                 (flat_map held (Engine.consumers p)
                  ++ Engine.queue p ++ pending (Engine.main s))))%nat.

(** ** A concrete setting to instantiate the statements at *)

Module Example.

(** A service that answers every GET with one fixed document and every
    POST with a series list, except that a request naming the series
    [DOWN] fails to connect and one naming [GONE] gets an error status. *)
Definition document : Py.val :=
  Py.Dict [("data", Py.Dict [("rows_available", Py.Int 12345)]);
           ("response", Py.Dict [("numFound", Py.Int 20000);
                                 ("docs", Py.List [Py.Str "doc"])]);
           ("updates", Py.List [Py.Str "row"])].

Definition service : world :=
  {| requests_get := λ _ _, Some {| ok := true; json := Some document |};
     requests_post := λ _ _ data,
       match data !! "series_id" with
       | Some (Py.Str "DOWN") => None
       | Some (Py.Str "GONE") => Some {| ok := false; json := None |}
       | Some id => Some {| ok := true;
                            json := Some (Py.Dict [("series", Py.List [id])]) |}
       | None => Some {| ok := false; json := None |}
       end;
     to_datetime := λ v, inr v;
     strftime := λ _ _, inr "2015-01-01T00:00:00Z" |}.

Definition heap : gmap nat (gmap string Py.val) :=
  {[ O := {[ "api_key" := Py.Str "KEY"; "out" := Py.Str "json" ]} ]}.

Definition self (cls : BaseQuery.class) : BaseQuery.instance :=
  {| BaseQuery.api_key := "KEY"; BaseQuery.default_params := O;
     BaseQuery.base_url := BaseQuery.urljoin BaseQuery.host
                                             (BaseQuery.endpoint cls) |}.

(** The pool of a fresh instance with [n] consumers. *)
Definition pool {Job Result} (n : nat) : Engine.pool Job Result :=
  {| Engine.queue := []; Engine.unfinished_tasks := O;
     Engine.results := []; Engine.consumers := repeat Engine.AtGet n |}.

End Example.

(** A sequence of [get] calls on one instance, whatever each returns or
    raises: the heap they leave and the requests they send. *)
Fixpoint get_each {Job} (W : world) (self : BaseQuery.instance)
         (calls : list (gmap string Py.val))
         (h : gmap nat (gmap string Py.val))
  : gmap nat (gmap string Py.val) * list (event Job) :=
  match calls with
  | [] => (h, [])
  | kwargs :: calls' =>
      match BaseQuery.get W self kwargs h with
      | (h1, t1, _) =>
          match get_each W self calls' h1 with
          | (h2, t2) => (h2, t1 ++ t2)
          end
      end
  end.

(** A second service, for the endpoints the first does not answer: every
    POST gets the categories of the series it names. *)
Module Sample.

Definition categories (id : string) : Py.val :=
  Py.Dict [("series_id", Py.Str id);
           ("categories", Py.List [Py.Dict [("category_id", Py.Int 371)]])].

Definition service : world :=
  {| requests_get := λ _ params,
       match params !! "category_id" with
       | Some id =>
           Some {| ok := true;
                   json := Some (Py.Dict [("category",
                                           Py.Dict [("category_id", id)])]) |}
       | None =>
           Some {| ok := true;
                   json := Some (Py.Dict [("geoset",
                                           Py.Dict [("geoset_id",
                                                     default Py.None_
                                                       (params !! "geoset_id"))])]) |}
       end;
     requests_post := λ _ _ data,
       match data !! "series_id" with
       | Some (Py.Str id) =>
           Some {| ok := true;
                   json := Some (Py.Dict [("series_categories",
                                           Py.List [categories id])]) |}
       | _ => Some {| ok := false; json := None |}
       end;
     to_datetime := λ v, inr v;
     strftime := λ v _, match v with
                        | Py.Str s => inr s
                        | _ => inl Py.AttributeError
                        end |}.

(** A service that cannot be reached. *)
Definition offline : world :=
  {| requests_get := λ _ _, None;
     requests_post := λ _ _ _, None;
     to_datetime := λ v, inr v;
     strftime := λ _ _, inl Py.AttributeError |}.

(** A service whose searches find nothing. *)
Definition no_match : world :=
  {| requests_get := λ _ _,
       Some {| ok := true;
               json := Some (Py.Dict [("response",
                                       Py.Dict [("numFound", Py.Int 0);
                                                ("docs", Py.List [])])]) |};
     requests_post := λ _ _ _, None;
     to_datetime := λ v, inr v;
     strftime := λ _ _, inl Py.AttributeError |}.

End Sample.

(** ** The operations a batch has still to make *)

(** The operations that remain for the job a consumer has in hand: its
    own, and the [results.get()] that collects the result. *)
Definition consumer_work {Job Result} (c : Engine.consumer Job Result)
  : nat :=
  match c with
  | Engine.AtParse _ => 4
  | Engine.AtPut _ => 3
  | Engine.AtTaskDone => 1
  | _ => 0
  end.

(** The operations that remain for the caller apart from collecting, with
    the six operations of each job it has still to put. *)
Definition caller_work {Job Result Out} (m : Engine.caller Job Result Out)
  : nat :=
  match m with
  | Engine.Putting js _ => 6 * length js + 4
  | Engine.Joining _ => 3
  | Engine.Collecting _ _ => 2
  | Engine.Reducing _ => 1
  | _ => 0
  end.

Definition work {Job Result Out} (s : Engine.system Job Result Out) : nat :=
  let p := Engine.self_pool s in
  caller_work (Engine.main s)
  + 5 * length (Engine.queue p)
  + sum_list_with consumer_work (Engine.consumers p)
  + length (Engine.results p).

(** The caller has not passed [queue.join()] and has a job still to put,
    or a task is unfinished. *)
Definition held_at_join {Job Result Out} (s : Engine.system Job Result Out)
  : Prop :=
  match Engine.main s with
  | Engine.Putting js (Engine.Joining _) =>
      js ≠ [] ∨ Engine.unfinished_tasks (Engine.self_pool s) ≠ O
  | Engine.Joining _ => Engine.unfinished_tasks (Engine.self_pool s) ≠ O
  | _ => False
  end.

(** * Properties *)

(** ** Arithmetic of [range] and of the ceiling quotient *)
Lemma ceil_div_nonpos x d : 0 < d → x ≤ 0 → Py.ceil_div x d ≤ 0.
Proof.
  intros Hd Hx. unfold Py.ceil_div.
  assert (0 ≤ (- x) / d) by (apply Z.div_pos; lia). lia.
Qed.

Lemma ceil_div_step x d : 0 < d → Py.ceil_div x d = 1 + Py.ceil_div (x - d) d.
Proof.
  intros Hd. unfold Py.ceil_div.
  replace (- (x - d)) with (- x + 1 * d) by lia.
  rewrite Z.div_add by lia. lia.
Qed.

Lemma ceil_div_pos x d : 0 < d → 0 < x → 0 < Py.ceil_div x d.
Proof.
  intros Hd Hx. unfold Py.ceil_div.
  assert ((- x) / d < 0) by (apply Z.div_lt_upper_bound; lia). lia.
Qed.

Lemma range_from_closed step stop fuel i :
  0 < step → (Z.to_nat (stop - i) ≤ fuel)%nat →
  Py.range_from fuel i stop step =
  map (λ k, i + step * Z.of_nat k)
      (seq 0 (Z.to_nat (Py.ceil_div (stop - i) step))).
Proof.
  intros Hstep. revert i.
  induction fuel as [|fuel IH]; intros i Hfuel; simpl.
  - pose proof (ceil_div_nonpos (stop - i) step); replace (Z.to_nat (Py.ceil_div (stop - i) step)) with O by lia; done.
  - destruct (0 <? step) eqn:E; [|lia].
    destruct (i <? stop) eqn:E2.
    + rewrite IH by lia.
      rewrite (ceil_div_step (stop - i) step) by lia.
      replace (stop - (i + step)) with (stop - i - step) by lia.
      assert (0 ≤ Py.ceil_div (stop - i - step) step).
      { destruct (Z_lt_le_dec 0 (stop - i - step)).
        - pose proof (ceil_div_pos (stop - i - step) step); lia.
        - unfold Py.ceil_div.
          assert (- (stop - i - step) / step < 1)
            by (apply Z.div_lt_upper_bound; lia).
          assert (0 ≤ - (stop - i - step) / step) by (apply Z.div_pos; lia).
          lia. }
      rewrite Z2Nat.inj_add by lia. simpl.
      f_equal; [lia|].
      rewrite <- seq_shift, map_map. apply map_ext. intros k. lia.
    + pose proof (ceil_div_nonpos (stop - i) step); replace (Z.to_nat (Py.ceil_div (stop - i) step)) with O by lia; done.
Qed.
Lemma range_closed n :
  Py.range n = map Z.of_nat (seq 0 (Z.to_nat n)).
Proof.
  unfold Py.range. rewrite range_from_closed by lia.
  unfold Py.ceil_div. replace (- (n - 0)) with (- n) by lia.
  rewrite Z.div_1_r. replace (- - n) with n by lia.
  apply map_ext. intros k. lia.
Qed.

(** The chunks as slices at multiples of [n]. *)
Lemma chunk_closed {A} (l : list A) (n : Z) :
  0 < n →
  chunk l n =
  inr (map (λ k, take (Z.to_nat n) (drop (k * Z.to_nat n) l))
           (seq 0 (Z.to_nat (Py.ceil_div (Z.of_nat (length l)) n)))).
Proof.
  intros Hn. unfold chunk, Py.range3.
  destruct (n =? 0) eqn:E; [lia|]. simpl.
  rewrite range_from_closed by lia.
  replace (Z.of_nat (length l) - 0) with (Z.of_nat (length l)) by lia.
  unfold Py.ret. f_equal. rewrite map_map.
  apply map_ext_in. intros k Hk. apply in_seq in Hk.
  set (N := Z.of_nat (length l)) in *.
  assert (Hlt : n * Z.of_nat k < N).
  { destruct (Z_lt_le_dec (n * Z.of_nat k) N) as [|Hge]; [done|].
    exfalso.
    assert (Py.ceil_div N n ≤ Z.of_nat k); [|lia].
    unfold Py.ceil_div.
    assert (- Z.of_nat k ≤ - N / n); [|lia].
    apply Z.div_le_lower_bound; lia. }
  unfold Py.slice, Py.clamp. fold N.
  destruct (0 + n * Z.of_nat k <? 0) eqn:E1; [lia|].
  destruct (0 + n * Z.of_nat k + n <? 0) eqn:E2; [lia|].
  replace (Z.to_nat (Z.min (0 + n * Z.of_nat k) N)) with (k * Z.to_nat n)%nat
    by nia.
  destruct (Z_le_gt_dec (0 + n * Z.of_nat k + n) N).
  - f_equal. nia.
  - rewrite !take_ge; [done| |]; rewrite length_drop; nia.
Qed.

Lemma concat_slices {A} (n m : nat) (l : list A) :
  (length l ≤ m * n)%nat →
  concat (map (λ k, take n (drop (k * n) l)) (seq 0 m)) = l.
Proof.
  revert l. induction m as [|m IH]; intros l Hlen; simpl.
  - destruct l; [done|simpl in Hlen; lia].
  - rewrite <- seq_shift, map_map.
    transitivity (take n l ++ drop n l); [|apply take_drop].
    f_equal.
    transitivity (concat (map (λ k, take n (drop (k * n) (drop n l)))
                              (seq 0 m)));
      [|apply IH; rewrite length_drop; lia].
    f_equal. apply map_ext. intros k.
    rewrite drop_drop. do 2 f_equal; lia.
Qed.

Lemma ceil_div_bounds x d :
  0 < d → d * (Py.ceil_div x d - 1) < x ∧ x ≤ d * Py.ceil_div x d.
Proof.
  intros Hd. unfold Py.ceil_div.
  pose proof (Z.mul_div_le (- x) d Hd).
  pose proof (Z.mul_succ_div_gt (- x) d Hd).
  lia.
Qed.

Lemma length_slices {A} (n m : nat) (l : list A) :
  map length (map (λ k, take n (drop (k * n) l)) (seq 0 m)) =
  map (λ k, Nat.min n (length l - k * n)) (seq 0 m).
Proof.
  rewrite map_map. apply map_ext. intros k.
  by rewrite length_take, length_drop.
Qed.

(** ** Loops that put one job per iteration *)

Lemma for_puts {Job X S} (body : X → S → Seq.M (Job := Job) S)
      (f : X → S → Job) (g : X → S → S) :
  (∀ x s h, body x s h = (h, [Put (f x s)], inr (g x s))) →
  ∀ xs s h,
    Seq.for_ xs s body h =
    (h, map Put (loop_jobs f g xs s), inr (fold_left (λ s x, g x s) xs s)).
Proof.
  intros Hbody xs. induction xs as [|x xs IH]; intros s h; simpl.
  - done.
  - unfold Seq.bind. rewrite Hbody, IH. done.
Qed.

Lemma puts_map_Put {Job} (js : list Job) : Engine.puts (map Put js) = js.
Proof. induction js as [|j js IH]; simpl; [done|by rewrite IH]. Qed.

Lemma puts_app {Job} (t1 t2 : list (event Job)) :
  Engine.puts (t1 ++ t2) = Engine.puts t1 ++ Engine.puts t2.
Proof.
  induction t1 as [|e t1 IH]; simpl; [done|].
  destruct e; simpl; by rewrite ?IH.
Qed.

(** ** [Series]: one job per chunk *)

Lemma series_loop_jobs (cs : list (list string)) (i : Z) (s : option Z) :
  loop_jobs (λ (iC : Z * list string) (_ : option Z), Py.join ";" (snd iC))
            (λ iC _, Some (fst iC)) (Py.enumerate_from i cs) s
  = map (Py.join ";") cs.
Proof.
  revert i s. induction cs as [|c cs IH]; intros i s; simpl; [done|].
  by rewrite IH.
Qed.

Lemma series_loop_last (cs : list (list string)) (i : Z) (s : option Z) :
  fold_left (λ (s : option Z) (iC : Z * list string), Some (fst iC))
            (Py.enumerate_from i cs) s
  = match cs with
    | [] => s
    | _ => Some (i + Z.of_nat (length cs) - 1)
    end.
Proof.
  revert i s. induction cs as [|c cs IH]; intros i s; simpl; [done|].
  rewrite IH. destruct cs; simpl; f_equal; lia.
Qed.

Lemma series_query_main p series_ids h cs :
  chunk series_ids 100 = inr cs →
  Series.query p series_ids h =
  {| Engine.main :=
       Engine.Putting (map (Py.join ";") cs)
         (Engine.Joining
            match cs with
            | [] => inl (Py.UnboundLocalError "i")
            | _ => inr (Z.of_nat (length cs))
            end);
     Engine.self_pool := p |}.
Proof.
  intros Hcs. unfold Series.query, Series.plan, Seq.bind, Seq.lift.
  rewrite Hcs.
  rewrite (for_puts _ (λ iC _, Py.join ";" (snd iC)) (λ iC _, Some (fst iC)))
    by done.
  unfold Py.enumerate. rewrite series_loop_jobs, series_loop_last.
  unfold Seq.ret, Engine.start. simpl. rewrite app_nil_r, puts_map_Put.
  destruct cs; simpl; [done|].
  do 4 f_equal. unfold Py.ret. f_equal. lia.
Qed.

(** C6. Count-bounded chunking: for a positive chunk size [n], [chunk]
    yields ceil(len / n) chunks, each of at most [n] elements, whose
    concatenation is the input; [Series.query] puts one job per chunk of
    100 ids; 250 ids make chunks of 100, 100 and 50. *)
Theorem chunk_count_bounded (series_ids : list string) (n : Z)
        (p : Engine.pool string Py.val) (h : gmap nat (gmap string Py.val)) :
  0 < n →
  ∃ cs, chunk series_ids n = inr cs
    ∧ Z.of_nat (length cs) = Py.ceil_div (Z.of_nat (length series_ids)) n
    ∧ Forall (λ c, 0 < Z.of_nat (length c) ≤ n) cs
    ∧ concat cs = series_ids
    ∧ (n = 100 →
       ∃ next, Engine.main (Series.query p series_ids h)
               = Engine.Putting (map (Py.join ";") cs) next)
    ∧ (n = 100 → length series_ids = 250%nat →
       map length cs = [100; 100; 50]%nat).
Proof.
  intros Hn. eexists. split; [by apply chunk_closed|].
  set (m := Z.to_nat (Py.ceil_div (Z.of_nat (length series_ids)) n)).
  pose proof (ceil_div_bounds (Z.of_nat (length series_ids)) n Hn) as [Hlo Hhi].
  assert (Hm : Z.of_nat m = Py.ceil_div (Z.of_nat (length series_ids)) n).
  { subst m. rewrite Z2Nat.id; [done|].
    destruct (Z_lt_le_dec (Py.ceil_div (Z.of_nat (length series_ids)) n) 0);
      [nia|done]. }
  split; [by rewrite length_map, length_seq|].
  split.
  { apply Forall_forall. intros c Hc. apply list_elem_of_In in Hc.
    apply in_map_iff in Hc as (k & <- & Hk). apply in_seq in Hk.
    rewrite length_take, length_drop. nia. }
  split; [apply concat_slices; nia|].
  split.
  - intros ->. eexists.
    erewrite series_query_main; [done|]. by apply chunk_closed.
  - intros -> Hlen. rewrite length_slices.
    subst m. rewrite Hlen. reflexivity.
Qed.

Lemma chunk_count_bounded_witness :
  ∃ cs, chunk (repeat "PET.MB" 250) 100 = inr cs
    ∧ Z.of_nat (length cs)
      = Py.ceil_div (Z.of_nat (length (repeat "PET.MB" 250))) 100
    ∧ Forall (λ c, 0 < Z.of_nat (length c) ≤ 100) cs
    ∧ concat cs = repeat "PET.MB" 250
    ∧ (100 = 100 →
       ∃ next, Engine.main
                 (Series.query
                    {| Engine.queue := []; Engine.unfinished_tasks := O;
                       Engine.results := []; Engine.consumers := [] |}
                    (repeat "PET.MB" 250) ∅)
               = Engine.Putting (map (Py.join ";") cs) next)
    ∧ (100 = 100 → length (repeat "PET.MB" 250) = 250%nat →
       map length cs = [100; 100; 50]%nat).
Proof. apply (chunk_count_bounded (repeat "PET.MB" 250) 100). lia. Defined.

(** ** [get]: what is sent, and what happens to the heap *)

Lemma get_run {Job} (W : world) (self : BaseQuery.instance)
      (kwargs : gmap string Py.val) (h : gmap nat (gmap string Py.val)) :
  let d := default ∅ (h !! BaseQuery.default_params self) in
  BaseQuery.get (Job := Job) W self kwargs h =
  (<[ fresh (dom h) := kwargs ∪ d ]> h,
   [Get (BaseQuery.base_url self) (kwargs ∪ d)],
   match requests_get W (BaseQuery.base_url self) (kwargs ∪ d) with
   | Some r => BaseQuery.checked_json r
   | None => inl Py.ConnectionError
   end).
Proof.
  intros d. unfold BaseQuery.get, Seq.dict_copy, Seq.dict_read, Seq.dict_new,
    Seq.dict_update, BaseQuery.http_get, Seq.bind, Seq.emit, Seq.lift,
    Seq.ret, Seq.raise.
  fold d. simpl. rewrite !lookup_insert_eq. simpl. rewrite insert_insert_eq.
  destruct (requests_get W (BaseQuery.base_url self) (kwargs ∪ d)); done.
Qed.

(** ** [Updates]: paging by rows *)


Section UpdatesPaging.
Variable rows : Z.
Hypothesis rows_pos : 0 < rows.
Variable params : gmap string Py.val.

Let m := Z.to_nat (Py.ceil_div rows 10000).



End UpdatesPaging.







(** ** [Search]: paging the whole result set *)






(** ** [Search]: the search term is checked first *)

Lemma term_in_spec (t : Py.val) (l : list string) :
  Search.term_in t l = true ↔ t ∈ map Py.Str l.
Proof.
  unfold Search.term_in. rewrite existsb_exists. split.
  - intros (s & Hs & Heq). destruct t; try done. simpl in Heq.
    apply String.eqb_eq in Heq as ->.
    apply list_elem_of_In, in_map, Hs.
  - intros Ht. apply list_elem_of_In, in_map_iff in Ht as (s & <- & Hs).
    exists s. split; [done|]. simpl. apply String.eqb_refl.
Qed.

(** C8. A [Search.query] whose search term is none of ['series_id'],
    ['name'], ['last_updated'] raises [AssertionError] from
    [clean_search_params], its first statement: the method has sent no
    request and put no job, and the pool is as it was. *)
Theorem search_invalid_term_raises (W : world) (self : BaseQuery.instance)
        (p : Engine.pool (gmap string Py.val) Py.val)
        (search_term search_value rows_per_page page_num : Py.val)
        (h : gmap nat (gmap string Py.val)) :
  search_term ∉ map Py.Str Search.valid_terms →
  Search.clean_search_params W search_term search_value
  = inl (Py.AssertionError "Invalid search term")
  ∧ Search.plan W self search_term search_value rows_per_page page_num h
    = (h, [], inl (Py.AssertionError "Invalid search term"))
  ∧ Engine.caller_step Search.reduce
      (Search.query W self p search_term search_value rows_per_page page_num h)
    = {| Engine.main := Engine.Raised (Py.AssertionError "Invalid search term");
         Engine.self_pool := p |}.
Proof.
  intros Hterm.
  assert (Hin : Search.term_in search_term Search.valid_terms = false).
  { destruct (Search.term_in search_term Search.valid_terms) eqn:E; [|done].
    by apply term_in_spec in E. }
  assert (Hclean : Search.clean_search_params W search_term search_value
                   = inl (Py.AssertionError "Invalid search term")).
  { unfold Search.clean_search_params. by rewrite Hin. }
  assert (Hplan :
    Search.plan W self search_term search_value rows_per_page page_num h
    = (h, [], inl (Py.AssertionError "Invalid search term"))).
  { unfold Search.plan, Seq.bind, Seq.lift. by rewrite Hclean. }
  split; [done|]. split; [done|].
  unfold Search.query. by rewrite Hplan.
Qed.

Lemma search_invalid_term_raises_witness :
  Search.clean_search_params Example.service (Py.Str "title") (Py.Str "oil")
  = inl (Py.AssertionError "Invalid search term")
  ∧ Search.plan Example.service (Example.self Search.cls)
                (Py.Str "title") (Py.Str "oil") (Py.Int 10) (Py.Int 1)
                Example.heap
    = (Example.heap, [], inl (Py.AssertionError "Invalid search term"))
  ∧ Engine.caller_step Search.reduce
      (Search.query Example.service (Example.self Search.cls) (Example.pool 4)
                    (Py.Str "title") (Py.Str "oil") (Py.Int 10) (Py.Int 1)
                    Example.heap)
    = {| Engine.main := Engine.Raised (Py.AssertionError "Invalid search term");
         Engine.self_pool := Example.pool 4 |}.
Proof.
  apply (search_invalid_term_raises Example.service
           (Example.self Search.cls) (Example.pool 4)
           (Py.Str "title") (Py.Str "oil") (Py.Int 10) (Py.Int 1)
           Example.heap).
  intros Hin. apply list_elem_of_In in Hin. simpl in Hin.
  repeat destruct Hin as [Hin|Hin]; try discriminate Hin. exact Hin.
Defined.

(** ** [get]: the defaults are copied, not shared *)

Lemma start_consumers {Job Result} (n k : nat)
      (l : list (Engine.consumer Job Result)) :
  fold_left (λ cs (_ : Z), cs ++ [Engine.AtGet]) (map Z.of_nat (seq k n)) l
  = l ++ repeat Engine.AtGet n.
Proof.
  revert k l. induction n as [|n IH]; intros k l; simpl.
  - by rewrite app_nil_r.
  - rewrite IH, <- app_assoc. done.
Qed.

Lemma init_run {Job Result} (cls : BaseQuery.class) (key output : string)
      (consumers : Z) (h : gmap nat (gmap string Py.val)) :
  ∃ pool,
    BaseQuery.__init__ (Job := Job) (Result := Result) cls key output consumers h
    = (<[ fresh (dom h) := {[ "api_key" := Py.Str key; "out" := Py.Str output ]} ]> h,
       [],
       inr ({| BaseQuery.api_key := key;
               BaseQuery.default_params := fresh (dom h);
               BaseQuery.base_url :=
                 BaseQuery.urljoin BaseQuery.host (BaseQuery.endpoint cls) |},
            pool))
    ∧ pool = if BaseQuery.has_parse cls
             then Some {| Engine.queue := []; Engine.unfinished_tasks := O;
                          Engine.results := [];
                          Engine.consumers :=
                            repeat Engine.AtGet (Z.to_nat consumers) |}
             else None.
Proof.
  unfold BaseQuery.__init__, Seq.bind, Seq.dict_new, Seq.ret.
  destruct (BaseQuery.has_parse cls); eexists; (split; [reflexivity|]); [|done].
  do 2 f_equal. by rewrite range_closed, start_consumers.
Qed.

(** C10. [get] sends the dict named by [self.default_params] overlaid
    with the keyword arguments, the caller's values winning, and works on
    a copy: the defaults, like every dict that exists at the call, are
    afterwards what they were. For an instance fresh from [__init__] the
    defaults are the api key and the output format. *)
Theorem get_overlays_defaults {Job : Type} (W : world)
        (self : BaseQuery.instance)
        (kwargs d : gmap string Py.val) (h : gmap nat (gmap string Py.val)) :
  h !! BaseQuery.default_params self = Some d →
  ∃ h' sent r,
    BaseQuery.get (Job := Job) W self kwargs h
    = (h', [Get (BaseQuery.base_url self) sent], r)
    ∧ (∀ k, sent !! k = match kwargs !! k with
                        | Some v => Some v
                        | None => d !! k
                        end)
    ∧ h' !! BaseQuery.default_params self = Some d
    ∧ (∀ l x, h !! l = Some x → h' !! l = Some x)
    ∧ (∀ cls key output consumers h0 h1 t1 pool,
         BaseQuery.__init__ (Job := unit) (Result := unit)
                            cls key output consumers h0
         = (h1, t1, inr (self, pool)) →
         h = h1 →
         d = {[ "api_key" := Py.Str key; "out" := Py.Str output ]}).
Proof.
  intros Hd. eexists _, _, _. split.
  { rewrite get_run. rewrite Hd. simpl. reflexivity. }
  assert (Hfresh : ∀ l x, h !! l = Some x → fresh (dom h) ≠ l).
  { intros l x Hl <-.
    apply (is_fresh (dom h)). apply elem_of_dom. by eexists. }
  split.
  { intros k. rewrite lookup_union.
    destruct (kwargs !! k), (d !! k); done. }
  split.
  { rewrite lookup_insert_ne; [done|]. by eapply Hfresh. }
  split.
  { intros l x Hl. rewrite lookup_insert_ne; [done|]. by eapply Hfresh. }
  intros cls key output consumers h0 h1 t1 pool Hinit ->.
  destruct (init_run (Job := unit) (Result := unit) cls key output consumers h0)
    as (pool' & Hrun & _).
  rewrite Hrun in Hinit. injection Hinit as <- _ <- _.
  simpl in Hd. rewrite lookup_insert_eq in Hd. by injection Hd.
Qed.

Lemma get_overlays_defaults_witness :
  ∃ h' sent r,
    BaseQuery.get (Job := unit) Example.service (Example.self Updates.cls)
                  {[ "out" := Py.Str "xml"; "rows" := Py.Int 1 ]} Example.heap
    = (h', [Get (BaseQuery.base_url (Example.self Updates.cls)) sent], r)
    ∧ (∀ k, sent !! k
            = match ({[ "out" := Py.Str "xml"; "rows" := Py.Int 1 ]}
                     : gmap string Py.val) !! k with
              | Some v => Some v
              | None => ({[ "api_key" := Py.Str "KEY"; "out" := Py.Str "json" ]}
                         : gmap string Py.val) !! k
              end)
    ∧ h' !! BaseQuery.default_params (Example.self Updates.cls)
      = Some {[ "api_key" := Py.Str "KEY"; "out" := Py.Str "json" ]}
    ∧ (∀ l x, Example.heap !! l = Some x → h' !! l = Some x)
    ∧ (∀ cls key output consumers h0 h1 t1 pool,
         BaseQuery.__init__ (Job := unit) (Result := unit)
                            cls key output consumers h0
         = (h1, t1, inr (Example.self Updates.cls, pool)) →
         Example.heap = h1 →
         ({[ "api_key" := Py.Str "KEY"; "out" := Py.Str "json" ]}
          : gmap string Py.val)
         = {[ "api_key" := Py.Str key; "out" := Py.Str output ]}).
Proof.
  apply (get_overlays_defaults (Job := unit) Example.service
           (Example.self Updates.cls)).
  reflexivity.
Defined.

(** ** The pool: what every schedule preserves *)

Lemma flat_map_insert {A B} (f : A → list B) (l : list A) (n : nat) (c : A) :
  l !! n = Some c →
  ∃ rest, flat_map f l ≡ₚ f c ++ rest
          ∧ ∀ c', flat_map f (<[n := c']> l) ≡ₚ f c' ++ rest.
Proof.
  revert n. induction l as [|x l IH]; intros n Hn; [done|].
  destruct n as [|n]; simpl in *.
  - injection Hn as ->. by exists (flat_map f l).
  - destruct (IH n Hn) as (rest & H1 & H2).
    exists (f x ++ rest). split.
    + rewrite H1. solve_Permutation.
    + intros c'. rewrite H2. solve_Permutation.
Qed.

Lemma length_range_nat (n : nat) : length (Py.range (Z.of_nat n)) = n.
Proof. by rewrite range_closed, length_map, length_seq, Nat2Z.id. Qed.

Section Invariant.
Context {Job Result Out : Type}.
Variable parse : Job → Py.result Result.
Variable reduce : list Result → Py.result Out.
Variable jobs : list Job.

Local Abbreviation inv := (invariant parse reduce jobs).

Lemma success_perm (a b : list Job) :
  a ≡ₚ b → flat_map (success parse) a ≡ₚ flat_map (success parse) b.
Proof. apply Permutation_flat_map. Qed.

Lemma invariant_batch c : inv (batch c jobs).
Proof.
  exists []. unfold batch, ledger. simpl.
  split; [done|]. split.
  - induction c as [|c IH]; simpl; [done|exact IH].
  - assert (flat_map (putting (Job := Job) (Result := Result))
                     (repeat Engine.AtGet c) = []) as ->
      by (induction c; simpl; done).
    assert (flat_map (held (Job := Job) (Result := Result))
                     (repeat Engine.AtGet c) = []) as ->
      by (induction c; simpl; done).
    done.
Qed.

Lemma invariant_caller_step s : inv s → inv (Engine.caller_step reduce s).
Proof.
  destruct s as [m p]. unfold invariant, Engine.caller_step, ledger. simpl.
  intros (collected & Hm & Hcount & Hperm).
  destruct m as [pend next|count|k out|out|v|e]; simpl in *.
  - destruct next as [| count | | | |]; try (by destruct pend).
    destruct pend as [|job rest]; simpl in *.
    + exists collected. done.
    + exists collected. split; [done|]. split.
      * rewrite length_app. simpl. lia.
      * rewrite Hperm. rewrite <- (app_assoc (Engine.queue p)). done.
  - destruct Hm as [-> ->].
    destruct (Engine.unfinished_tasks p) eqn:Hu; simpl.
    + exists []. rewrite Hu. split; [|done].
      split; [done|]. rewrite length_range_nat. simpl. lia.
    + exists []. rewrite Hu. done.
  - destruct Hm as [-> Hk].
    destruct k as [|k]; simpl.
    + exists out. split; [|done]. split; [done|lia].
    + destruct (Engine.results p) as [|r rest] eqn:Hres; simpl.
      * exists out. rewrite Hres. done.
      * exists (out ++ [r]). split; [|split; [done|]].
        -- split; [done|]. rewrite length_app. simpl. lia.
        -- rewrite Hperm. rewrite <- app_assoc. done.
  - destruct Hm as [-> Hlen].
    destruct (reduce out) eqn:Hred; simpl; exists out; done.
  - exists collected. done.
  - exists collected. done.
Qed.

Lemma invariant_consumer_step n s : inv s → inv (Engine.consumer_step parse n s).
Proof.
  destruct s as [m p]. unfold invariant, Engine.consumer_step, ledger. simpl.
  intros (collected & Hm & Hcount & Hperm).
  destruct (Engine.consumers p !! n) as [c|] eqn:Hc;
    [|exists collected; done].
  destruct (flat_map_insert (putting (Job := Job)) _ n c Hc)
    as (P & HP & HP').
  destruct (flat_map_insert (held (Result := Result)) _ n c Hc)
    as (H & HH & HH').
  destruct (flat_map_insert owing _ n c Hc) as (O & HO & HO').
  rewrite HP in Hperm. rewrite flat_map_app in Hperm.
  rewrite (success_perm _ _ HH) in Hperm.
  rewrite HO in Hcount.
  assert (Hlen : ∀ c', length (flat_map owing (<[n:=c']> (Engine.consumers p)))
                       = (length (owing c') + length O)%nat).
  { intros c'. by rewrite HO', length_app. }
  assert (Hsucc : ∀ c' rest,
             flat_map (success parse)
                      (flat_map held (<[n:=c']> (Engine.consumers p)) ++ rest)
             ≡ₚ flat_map (success parse) (held c')
                ++ flat_map (success parse) H
                ++ flat_map (success parse) rest).
  { intros c' rest. rewrite flat_map_app, (success_perm _ _ (HH' c')).
    by rewrite flat_map_app, <- app_assoc. }
  destruct c as [|job|r|e| |e]; simpl in *.
  - destruct (Engine.queue p) as [|job rest] eqn:Hq; simpl in *;
      exists collected; (split; [done|]); rewrite Hlen, HP', Hsucc;
      rewrite ?Hq; simpl.
    + split; [lia|]. by rewrite Hperm.
    + split; [lia|]. rewrite Hperm, app_nil_r. solve_Permutation.
  - destruct (parse job) as [e|r] eqn:Hparse; simpl;
      exists collected; (split; [done|]); rewrite Hlen, HP', Hsucc; simpl;
      (split; [lia|]); rewrite Hperm; unfold success at 1; rewrite Hparse;
      solve_Permutation.
  - exists collected. split; [done|]. rewrite Hlen, HP', Hsucc. simpl.
    split; [lia|]. rewrite Hperm. solve_Permutation.
  - exists collected. split; [done|]. rewrite Hlen, HP', Hsucc. simpl.
    split; [lia|]. by rewrite Hperm.
  - destruct (Engine.unfinished_tasks p) as [|u] eqn:Hu; simpl in *; [lia|].
    exists collected. split; [done|]. rewrite Hlen, HP', Hsucc. simpl.
    split; [lia|]. by rewrite Hperm.
  - exists collected. split; [done|]. rewrite Hlen, HP', Hsucc. simpl.
    split; [lia|]. by rewrite Hperm.
Qed.

Lemma invariant_step t s : inv s → inv (Engine.step parse reduce t s).
Proof.
  destruct t; [apply invariant_caller_step|apply invariant_consumer_step].
Qed.

Lemma invariant_run sched s : inv s → inv (Engine.run parse reduce sched s).
Proof.
  revert s. induction sched as [|t sched IH]; intros s Hs; [done|].
  simpl. apply IH, invariant_step, Hs.
Qed.

End Invariant.

(** ** A job whose [parse] raises *)

Section Failure.
Context {Job Result Out : Type}.
Variable parse : Job → Py.result Result.
Variable reduce : list Result → Py.result Out.

Lemma success_length (jobs : list Job) :
  (length (flat_map (success parse) jobs) ≤ length jobs)%nat.
Proof.
  induction jobs as [|j jobs IH]; simpl; [done|].
  rewrite length_app. unfold success at 1.
  destruct (parse j); simpl; lia.
Qed.

Lemma success_length_failed (jobs : list Job) job e :
  job ∈ jobs → parse job = inl e →
  (length (flat_map (success parse) jobs) < length jobs)%nat.
Proof.
  intros Hin Hfail. induction Hin as [job jobs|job j jobs Hin IH]; simpl.
  - rewrite length_app. unfold success at 1. rewrite Hfail. simpl.
    pose proof (success_length jobs). lia.
  - rewrite length_app. specialize (IH Hfail).
    unfold success at 1. destruct (parse j); simpl; lia.
Qed.

Lemma success_elem (jobs : list Job) r :
  r ∈ flat_map (success parse) jobs → ∃ j, j ∈ jobs ∧ parse j = inr r.
Proof.
  intros Hr. apply list_elem_of_In, in_flat_map in Hr as (j & Hj & Hr).
  exists j. split; [by apply list_elem_of_In|].
  unfold success in Hr. destruct (parse j) as [|r']; simpl in Hr; [done|].
  destruct Hr as [->|[]]. done.
Qed.

Lemma recorded_in_ledger jobs s :
  invariant parse reduce jobs s →
  ∃ rest, flat_map (success parse) jobs ≡ₚ recorded s ++ rest.
Proof.
  intros (collected & Hm & _ & Hperm). unfold ledger in Hperm.
  unfold recorded. destruct s as [m p]. simpl in *.
  set (X := flat_map putting (Engine.consumers p)
            ++ flat_map (success parse)
                 (flat_map held (Engine.consumers p)
                  ++ Engine.queue p ++ pending m)) in *.
  assert (Hswap : flat_map (success parse) jobs
                  ≡ₚ Engine.results p ++ collected ++ X).
  { etrans; [exact Hperm|]. apply Permutation_app_swap_app. }
  destruct m as [pend next|count|k out|out|v|e]; simpl in *.
  - by exists (collected ++ X).
  - by exists (collected ++ X).
  - destruct Hm as [-> _]. exists X. by rewrite <- app_assoc.
  - destruct Hm as [-> _]. exists X. by rewrite <- app_assoc.
  - by exists (collected ++ X).
  - by exists (collected ++ X).
Qed.

Lemma collected_all_in_ledger jobs s :
  invariant parse reduce jobs s → finished (Engine.main s) →
  (length jobs ≤ length (flat_map (success parse) jobs))%nat.
Proof.
  intros (collected & Hm & _ & Hperm) Hfin.
  rewrite Hperm. unfold ledger. rewrite length_app.
  destruct s as [m p]. simpl in *.
  destruct m; simpl in *; try done; destruct Hm as [<- _]; lia.
Qed.

(** C1. The code at a failing job: in a batch with a job whose [parse]
    raises, at every point of every schedule fewer results have been
    recorded than jobs were submitted, and every recorded result is the
    return value of [parse] for some job; nothing is recorded for the
    failed job. *)
Theorem failed_job_records_no_outcome (jobs : list Job) (c : nat)
        (sched : list thread) (job : Job) (e : Py.exn) :
  job ∈ jobs → parse job = inl e →
  let s := Engine.run parse reduce sched (batch c jobs) in
  (length (recorded s) < length jobs)%nat
  ∧ (∀ r, r ∈ recorded s → ∃ j, j ∈ jobs ∧ parse j = inr r).
Proof.
  intros Hin Hfail s.
  destruct (recorded_in_ledger jobs s) as (rest & Hperm).
  { apply invariant_run, invariant_batch. }
  split.
  - pose proof (success_length_failed jobs job e Hin Hfail) as Hlt.
    rewrite Hperm, length_app in Hlt. lia.
  - intros r Hr. apply success_elem. rewrite Hperm.
    apply elem_of_app. by left.
Qed.

Lemma failed_job_never_finishes (jobs : list Job) (c : nat)
      (sched : list thread) (job : Job) (e : Py.exn) :
  job ∈ jobs → parse job = inl e →
  ¬ finished (Engine.main (Engine.run parse reduce sched (batch c jobs))).
Proof.
  intros Hin Hfail Hfin.
  pose proof (success_length_failed jobs job e Hin Hfail) as Hlt.
  pose proof (collected_all_in_ledger jobs _
                (invariant_run parse reduce jobs sched _
                   (invariant_batch parse reduce jobs c)) Hfin).
  lia.
Qed.

End Failure.

Lemma failed_job_records_no_outcome_witness :
  let parse := λ job, BaseQuery.outcome
                        (Series.parse Example.service
                                      (Example.self Series.cls) job)
                        Example.heap in
  let s := Engine.run parse Series.reduce
                      [Caller; Consumer 0; Consumer 0; Consumer 0; Caller]
                      (batch 1 ["DOWN"]) in
  (length (recorded s) < length ["DOWN"])%nat
  ∧ (∀ r, r ∈ recorded s → ∃ j, j ∈ ["DOWN"] ∧ parse j = inr r).
Proof.
  intros parse.
  apply (failed_job_records_no_outcome parse Series.reduce ["DOWN"] 1
           [Caller; Consumer 0; Consumer 0; Consumer 0; Caller]
           "DOWN" Py.ConnectionError).
  - apply list_elem_of_here.
  - vm_compute. reflexivity.
Defined.

(** At that input the only consumer ends terminated by the [NameError] of
    its handler, with the task still unfinished and nothing recorded, and
    the caller waits in [join]. *)
Lemma failed_job_run :
  Series.run Example.service (Example.self Series.cls) Example.heap
             [Caller; Caller; Consumer 0; Consumer 0; Consumer 0; Caller; Caller]
             (Series.query (Example.pool 1) ["DOWN"] Example.heap)
  = {| Engine.main := Engine.Joining (inr 1);
       Engine.self_pool :=
         {| Engine.queue := []; Engine.unfinished_tasks := 1;
            Engine.results := [];
            Engine.consumers := [Engine.Terminated (Py.NameError "warn")] |} |}.
Proof. vm_compute. reflexivity. Qed.

(** An error status is swallowed by [post]: [None] is recorded as the
    result, and the returned comprehension raises on it. *)
Lemma error_status_run :
  Series.run Example.service (Example.self Series.cls) Example.heap
             (one_by_one 1 ++ [Caller])
             (Series.query (Example.pool 1) ["GONE"] Example.heap)
  = {| Engine.main := Engine.Raised Py.TypeError;
       Engine.self_pool := Example.pool 1 |}.
Proof. vm_compute. reflexivity. Qed.

(** ** [Series.query] with a failing job *)

Lemma series_query_batch c series_ids h cs :
  chunk series_ids 100 = inr cs → cs ≠ [] →
  Series.query (Example.pool c) series_ids h
  = batch c (map (Py.join ";") cs).
Proof.
  intros Hcs Hne. rewrite (series_query_main _ _ _ cs Hcs).
  unfold batch, Example.pool. rewrite length_map.
  destruct cs; done.
Qed.

(** C2. The code at a batch with a failing job: when [parse] raises for
    one of the jobs [Series.query] puts, then under every schedule the
    query has neither returned nor raised: the caller stays blocked. *)
Theorem series_failed_job_hangs (W : world) (self : BaseQuery.instance)
        (h0 h : gmap nat (gmap string Py.val)) (c : nat)
        (series_ids : list string) (job : string) (e : Py.exn)
        (sched : list thread) :
  job ∈ pending (Engine.main (Series.query (Example.pool c) series_ids h0)) →
  BaseQuery.outcome (Series.parse W self job) h = inl e →
  ¬ finished
      (Engine.main
         (Series.run W self h sched
                     (Series.query (Example.pool c) series_ids h0))).
Proof.
  intros Hjob Hfail.
  pose proof (chunk_closed series_ids 100 ltac:(lia)) as Hcs.
  set (cs := map _ _) in Hcs.
  rewrite (series_query_main _ _ _ cs Hcs) in Hjob. simpl in Hjob.
  assert (Hne : cs ≠ []) by (intros Heq; rewrite Heq in Hjob; inversion Hjob).
  rewrite (series_query_batch c series_ids h0 cs Hcs Hne).
  unfold Series.run.
  by eapply failed_job_never_finishes.
Qed.

Lemma series_failed_job_hangs_witness :
  ¬ finished
      (Engine.main
         (Series.run Example.service (Example.self Series.cls) Example.heap
                     (one_by_one 3 ++ [Caller])
                     (Series.query (Example.pool 4)
                                   (repeat "PET.MB" 100 ++ ["DOWN"])
                                   Example.heap))).
Proof.
  apply (series_failed_job_hangs Example.service (Example.self Series.cls)
           Example.heap Example.heap 4 (repeat "PET.MB" 100 ++ ["DOWN"])
           "DOWN" Py.ConnectionError).
  - vm_compute. apply list_elem_of_further, list_elem_of_here.
  - vm_compute. reflexivity.
Defined.

(** ** An idle pool, and a batch without jobs *)

Lemma lookup_repeat_Some {A} (x y : A) (c n : nat) :
  repeat x c !! n = Some y → y = x.
Proof.
  revert n. induction c as [|c IH]; intros n Hn; [done|].
  destruct n as [|n]; simpl in Hn; [by injection Hn|by eapply IH].
Qed.

Lemma idle_consumer_step {Job Result Out} (parse : Job → Py.result Result)
      (m : Engine.caller Job Result Out) (c n : nat) :
  Engine.consumer_step parse n
    {| Engine.main := m; Engine.self_pool := Example.pool c |}
  = {| Engine.main := m; Engine.self_pool := Example.pool c |}.
Proof.
  unfold Engine.consumer_step. simpl.
  destruct (repeat Engine.AtGet c !! n) as [x|] eqn:Hn; [|done].
  pose proof (lookup_repeat_Some _ _ _ _ Hn) as ->. simpl.
  unfold Example.pool. by rewrite list_insert_id.
Qed.

Lemma run_cons {Job Result Out} (parse : Job → Py.result Result)
      (reduce : list Result → Py.result Out) t sched s :
  Engine.run parse reduce (t :: sched) s
  = Engine.run parse reduce sched (Engine.step parse reduce t s).
Proof. reflexivity. Qed.

Lemma run_app {Job Result Out} (parse : Job → Py.result Result)
      (reduce : list Result → Py.result Out) sched1 sched2 s :
  Engine.run parse reduce (sched1 ++ sched2) s
  = Engine.run parse reduce sched2 (Engine.run parse reduce sched1 s).
Proof. apply fold_left_app. Qed.

(** The caller of a batch without jobs whose count is unbound, after [k]
    of its operations. *)
Lemma empty_batch_run {Job Result Out} (parse : Job → Py.result Result)
      (reduce : list Result → Py.result Out) (e : Py.exn) (c : nat)
      (sched : list thread) (k : nat) :
  let at_ (k : nat) : Engine.caller Job Result Out :=
    match k with
    | O => Engine.Putting [] (Engine.Joining (inl e))
    | S O => Engine.Joining (inl e)
    | _ => Engine.Raised e
    end in
  Engine.run parse reduce sched
    {| Engine.main := at_ k; Engine.self_pool := Example.pool c |}
  = {| Engine.main := at_ (k + caller_steps sched)%nat;
       Engine.self_pool := Example.pool c |}.
Proof.
  intros at_. revert k.
  induction sched as [|t sched IH]; intros k.
  - simpl. by rewrite Nat.add_0_r.
  - rewrite run_cons. destruct t as [|n]; unfold Engine.step.
    + simpl caller_steps.
      replace (k + S (caller_steps sched))%nat
        with (S k + caller_steps sched)%nat by lia.
      rewrite <- IH. f_equal.
      destruct k as [|[|k]]; reflexivity.
    + rewrite idle_consumer_step. apply IH.
Qed.

(** C4. The code at an empty batch: [Series.query()] with no ids puts no
    job, passes [join] at once, and then raises [UnboundLocalError] for
    the loop variable [i] of the loop that never ran: under no schedule
    does it return, and from its second operation on it has raised. *)
Theorem series_empty_batch_raises (W : world) (self : BaseQuery.instance)
        (h0 h : gmap nat (gmap string Py.val)) (c : nat)
        (sched : list thread) :
  let s := Series.run W self h sched
                      (Series.query (Example.pool c) [] h0) in
  (∀ v, Engine.main s ≠ Engine.Returned v)
  ∧ ((2 ≤ caller_steps sched)%nat →
     Engine.main s = Engine.Raised (Py.UnboundLocalError "i"))
  ∧ Engine.self_pool s = Example.pool c.
Proof.
  intros s. subst s. unfold Series.run.
  change (Series.query (Example.pool c) [] h0)
    with {| Engine.main :=
              Engine.Putting (Job := string) (Result := Py.val)
                             (Out := Py.val) []
                (Engine.Joining (inl (Py.UnboundLocalError "i")));
            Engine.self_pool := Example.pool c |}.
  rewrite (empty_batch_run _ _ (Py.UnboundLocalError "i") c sched 0).
  simpl. split; [|split; [|done]].
  - intros v. by destruct (caller_steps sched) as [|[|k]].
  - intros Hk. destruct (caller_steps sched) as [|[|k]]; [lia|lia|done].
Qed.

(** At that input: *)
Lemma empty_batch_run_example :
  Engine.main
    (Series.run Example.service (Example.self Series.cls) Example.heap
                [Caller; Caller]
                (Series.query (Example.pool 4) [] Example.heap))
  = Engine.Raised (Py.UnboundLocalError "i").
Proof. vm_compute. reflexivity. Qed.

(** ** The size of the pool *)

Section PoolSize.
Context {Job Result Out : Type}.
Variable parse : Job → Py.result Result.
Variable reduce : list Result → Py.result Out.

Lemma consume_consumers (c : Engine.consumer Job Result) p :
  Engine.consumers (snd (Engine._consume parse c p)) = Engine.consumers p.
Proof.
  destruct c; simpl; try done.
  - by destruct (Engine.queue p).
  - by destruct (parse job).
  - by destruct (Engine.unfinished_tasks p).
Qed.

Lemma step_consumers_length t (s : Engine.system Job Result Out) :
  length (Engine.consumers (Engine.self_pool (Engine.step parse reduce t s)))
  = length (Engine.consumers (Engine.self_pool s)).
Proof.
  destruct s as [m p]. destruct t as [|n]; simpl.
  - unfold Engine.caller_step. simpl.
    destruct m as [[|job rest] next|count|[|k] out|out|v|e]; simpl; try done.
    + destruct (Engine.unfinished_tasks p); [destruct count|]; done.
    + by destruct (Engine.results p).
    + by destruct (reduce out).
  - unfold Engine.consumer_step. simpl.
    destruct (Engine.consumers p !! n) as [c|]; [|done].
    pose proof (consume_consumers c p) as Hc.
    destruct (Engine._consume parse c p) as [c' p']. simpl in *.
    by rewrite length_insert, Hc.
Qed.

Lemma run_consumers_length sched (s : Engine.system Job Result Out) :
  length (Engine.consumers (Engine.self_pool (Engine.run parse reduce sched s)))
  = length (Engine.consumers (Engine.self_pool s)).
Proof.
  revert s. induction sched as [|t sched IH]; intros s; [done|].
  rewrite run_cons, IH. apply step_consumers_length.
Qed.


End PoolSize.



(** ** The order of the collected results *)

Section Order.
Context {Job Result Out : Type}.
Variable parse : Job → Py.result Result.
Variable reduce : list Result → Py.result Out.
Variable f : Job → Result.

Lemma success_all (jobs : list Job) :
  (∀ job, job ∈ jobs → parse job = inr (f job)) →
  flat_map (success parse) jobs = map f jobs.
Proof.
  induction jobs as [|j jobs IH]; intros Hall; simpl; [done|].
  rewrite IH by (intros job Hjob; apply Hall; by right).
  unfold success. rewrite (Hall j) by left. done.
Qed.

Lemma collected_is_permutation (jobs : list Job)
      (s : Engine.system Job Result Out) collected :
  (∀ job, job ∈ jobs → parse job = inr (f job)) →
  length collected = length jobs →
  flat_map (success parse) jobs ≡ₚ ledger parse collected s →
  collected ≡ₚ map f jobs.
Proof.
  intros Hall Hlen Hperm. rewrite success_all in Hperm by done.
  unfold ledger in Hperm. cbv zeta in Hperm.
  set (rest := Engine.results _ ++ _) in Hperm.
  pose proof (Permutation_length Hperm) as Hl.
  rewrite length_map, length_app in Hl.
  destruct rest as [|x rest]; simpl in Hl; [|lia].
  rewrite app_nil_r in Hperm. done.
Qed.

(** The three phases of [one_by_one]. *)
Lemma run_puts (jobs : list Job) next q u rs cs :
  Engine.run parse reduce (repeat Caller (length jobs))
    {| Engine.main := Engine.Putting jobs next;
       Engine.self_pool :=
         {| Engine.queue := q; Engine.unfinished_tasks := u;
            Engine.results := rs; Engine.consumers := cs |} |}
  = {| Engine.main := Engine.Putting (Out := Out) [] next;
       Engine.self_pool :=
         {| Engine.queue := q ++ jobs;
            Engine.unfinished_tasks := (u + length jobs)%nat;
            Engine.results := rs; Engine.consumers := cs |} |}.
Proof.
  revert q u. induction jobs as [|j jobs IH]; intros q u.
  - simpl. by rewrite app_nil_r, Nat.add_0_r.
  - simpl length. simpl repeat. rewrite run_cons. simpl Engine.step.
    unfold Engine.caller_step. simpl. rewrite IH.
    rewrite <- app_assoc. simpl. do 3 f_equal. lia.
Qed.

Lemma run_first_consumer (q : list Job) (m : Engine.caller Job Result Out)
      u rs cs :
  (∀ job, job ∈ q → parse job = inr (f job)) →
  Engine.run parse reduce
    (concat (repeat [Consumer 0; Consumer 0; Consumer 0; Consumer 0]
                    (length q)))
    {| Engine.main := m;
       Engine.self_pool :=
         {| Engine.queue := q; Engine.unfinished_tasks := (length q + u)%nat;
            Engine.results := rs;
            Engine.consumers := Engine.AtGet :: cs |} |}
  = {| Engine.main := m;
       Engine.self_pool :=
         {| Engine.queue := []; Engine.unfinished_tasks := u;
            Engine.results := rs ++ map f q;
            Engine.consumers := Engine.AtGet :: cs |} |}.
Proof.
  revert rs. induction q as [|j q IH]; intros rs Hall.
  - simpl. by rewrite app_nil_r.
  - simpl length. simpl repeat. simpl concat.
    rewrite !run_cons. simpl Engine.step.
    unfold Engine.consumer_step. simpl.
    rewrite (Hall j) by left. simpl.
    rewrite IH by (intros job Hjob; apply Hall; by right).
    by rewrite <- app_assoc.
Qed.

Lemma run_collects (rs out : list Result) q u cs :
  Engine.run parse reduce (repeat Caller (length rs))
    {| Engine.main := Engine.Collecting (Job := Job) (Out := Out)
                                        (length rs) out;
       Engine.self_pool :=
         {| Engine.queue := q; Engine.unfinished_tasks := u;
            Engine.results := rs; Engine.consumers := cs |} |}
  = {| Engine.main := Engine.Collecting O (out ++ rs);
       Engine.self_pool :=
         {| Engine.queue := q; Engine.unfinished_tasks := u;
            Engine.results := []; Engine.consumers := cs |} |}.
Proof.
  revert out. induction rs as [|r rs IH]; intros out.
  - simpl. by rewrite app_nil_r.
  - simpl length. simpl repeat. rewrite run_cons. simpl Engine.step.
    unfold Engine.caller_step. simpl. rewrite IH.
    by rewrite <- app_assoc.
Qed.

Lemma repeat_snoc {A} (x : A) n : repeat x (S n) = repeat x n ++ [x].
Proof. induction n as [|n IH]; simpl; [done|]. by rewrite <- IH. Qed.

Lemma run_one_by_one (jobs : list Job) c :
  (∀ job, job ∈ jobs → parse job = inr (f job)) →
  Engine.run parse reduce (one_by_one (length jobs)) (batch (S c) jobs)
  = {| Engine.main := Engine.Reducing (map f jobs);
       Engine.self_pool := Example.pool (S c) |}.
Proof.
  intros Hall. unfold one_by_one. rewrite !run_app.
  set (n := length jobs).
  assert (HA : Engine.run parse reduce (repeat Caller (S n)) (batch (S c) jobs)
               = {| Engine.main := Engine.Joining (inr (Z.of_nat n));
                    Engine.self_pool :=
                      {| Engine.queue := jobs; Engine.unfinished_tasks := n;
                         Engine.results := [];
                         Engine.consumers :=
                           Engine.AtGet :: repeat Engine.AtGet c |} |}).
  { rewrite repeat_snoc, run_app. unfold batch. subst n.
    rewrite run_puts. reflexivity. }
  rewrite HA. clear HA.
  pose proof (run_first_consumer jobs
                (Engine.Joining (inr (Z.of_nat n))) 0 []
                (repeat Engine.AtGet c) Hall) as HB.
  rewrite Nat.add_0_r in HB. fold n in HB. rewrite HB. clear HB.
  change (repeat Caller (S (S n))) with (Caller :: repeat Caller (S n)).
  rewrite run_cons, repeat_snoc, run_app.
  assert (HC : Engine.step parse reduce Caller
                 {| Engine.main := Engine.Joining (inr (Z.of_nat n));
                    Engine.self_pool :=
                      {| Engine.queue := []; Engine.unfinished_tasks := 0;
                         Engine.results := [] ++ map f jobs;
                         Engine.consumers :=
                           Engine.AtGet :: repeat Engine.AtGet c |} |}
               = {| Engine.main :=
                      Engine.Collecting (length (map f jobs)) [];
                    Engine.self_pool :=
                      {| Engine.queue := []; Engine.unfinished_tasks := 0;
                         Engine.results := map f jobs;
                         Engine.consumers :=
                           Engine.AtGet :: repeat Engine.AtGet c |} |}).
  { unfold Engine.step, Engine.caller_step. simpl.
    by rewrite length_range_nat, length_map. }
  rewrite HC. clear HC.
  replace n with (length (map f jobs)) by apply length_map.
  rewrite run_collects. reflexivity.
Qed.

End Order.




(** * Further properties of the code *)

(** ** [chunk]: sizes that are not positive, and where an element ends up *)

(** X1. A chunk size of zero makes [chunk] raise [ValueError] (from
    [range]); a negative one makes it yield no chunk at all, whatever the
    list holds. *)
Theorem chunk_size_not_positive {A} (l : list A) (n : Z) :
  n ≤ 0 →
  chunk l n = if n =? 0 then inl Py.ValueError else inr [].
Proof.
  intros Hn. unfold chunk, Py.range3.
  destruct (n =? 0) eqn:E; [done|]. simpl.
  destruct (Z.to_nat (Z.abs (Z.of_nat (length l) - 0))) as [|fuel]; simpl;
    [done|].
  destruct (0 <? n) eqn:E1; [apply Z.ltb_lt in E1; lia|].
  destruct (Z.of_nat (length l) <? 0) eqn:E2; [|done].
  apply Z.ltb_lt in E2. lia.
Qed.

Lemma chunk_size_not_positive_witness :
  chunk ["a"; "b"; "c"] (-2) = (if -2 =? 0 then inl Py.ValueError else inr [])
  ∧ chunk ["a"; "b"; "c"] 0 = (if 0 =? 0 then inl Py.ValueError else inr []).
Proof.
  split.
  - apply (chunk_size_not_positive ["a"; "b"; "c"] (-2)). lia.
  - apply (chunk_size_not_positive ["a"; "b"; "c"] 0). lia.
Defined.

(** X2. For a positive chunk size [n], element [i] of the list is element
    [i mod n] of chunk [i / n], and every chunk before the last has
    exactly [n] elements. *)
Theorem chunk_lookup {A} (l : list A) (n : nat) (cs : list (list A)) :
  (0 < n)%nat →
  chunk l (Z.of_nat n) = inr cs →
  (∀ i, l !! i = cs !! (i / n)%nat ≫= λ c, c !! (i mod n)%nat)
  ∧ (∀ k c, cs !! k = Some c → (S k < length cs)%nat → length c = n).
Proof.
  intros Hn Hcs. rewrite chunk_closed in Hcs by lia.
  rewrite Nat2Z.id in Hcs. injection Hcs as <-.
  set (m := Z.to_nat (Py.ceil_div (Z.of_nat (length l)) (Z.of_nat n))).
  pose proof (ceil_div_bounds (Z.of_nat (length l)) (Z.of_nat n) ltac:(lia))
    as [Hlo Hhi].
  assert (Hm : Z.of_nat m = Py.ceil_div (Z.of_nat (length l)) (Z.of_nat n)).
  { subst m. rewrite Z2Nat.id; [done|].
    destruct (Z_lt_le_dec (Py.ceil_div (Z.of_nat (length l)) (Z.of_nat n)) 0);
      [nia|done]. }
  split.
  - intros i. rewrite list_lookup_fmap.
    pose proof (Nat.div_mod_eq i n) as Hdm.
    pose proof (Nat.mod_upper_bound i n ltac:(lia)) as Hmod.
    destruct (decide (i / n < m)%nat) as [Hlt|Hge].
    + rewrite lookup_seq_lt by done. simpl.
      rewrite lookup_take_lt by done. rewrite lookup_drop.
      f_equal. lia.
    + rewrite lookup_seq_ge by lia. simpl.
      apply lookup_ge_None_2. nia.
  - intros k c Hc Hk. rewrite length_map, length_seq in Hk.
    rewrite list_lookup_fmap in Hc.
    rewrite lookup_seq_lt in Hc by lia. simpl in Hc. injection Hc as <-.
    rewrite length_take, length_drop. nia.
Qed.

Lemma chunk_lookup_witness :
  (∀ i, ["a"; "b"; "c"; "d"; "e"] !! i
        = [["a"; "b"]; ["c"; "d"]; ["e"]] !! (i / 2)%nat
          ≫= λ c, c !! (i mod 2)%nat)
  ∧ (∀ k c, [["a"; "b"]; ["c"; "d"]; ["e"]] !! k = Some c →
            (S k < length [["a"; "b"]; ["c"; "d"]; ["e"]])%nat →
            length c = 2%nat).
Proof.
  apply (chunk_lookup ["a"; "b"; "c"; "d"; "e"] 2).
  - lia.
  - reflexivity.
Defined.

(** ** The pool once the caller is past [join] *)

Section Barrier.
Context {Job Result Out : Type}.
Variable parse : Job → Py.result Result.
Variable reduce : list Result → Py.result Out.
Variable jobs : list Job.

Local Abbreviation inv := (invariant parse reduce jobs).

Lemma settled_step t s : inv s → settled s → settled (Engine.step parse reduce t s).
Proof.
  intros (collected & Hm & Hcount & _) Hs.
  destruct s as [m p]. unfold settled in *. simpl in *.
  destruct t as [|n]; simpl.
  - unfold Engine.caller_step. simpl.
    destruct m as [[|job rest] next|count|[|k] out|out|v|e]; simpl in *;
      try done.
    + destruct next; simpl in *; done.
    + destruct (Engine.unfinished_tasks p) eqn:Hu; [|done].
      destruct count; simpl; by rewrite Hu.
    + destruct (Engine.results p); simpl; auto.
    + destruct (reduce out); simpl; auto.
  - unfold Engine.consumer_step. simpl.
    destruct (Engine.consumers p !! n) as [c|]; [|done].
    destruct c; simpl; try done.
    + destruct (Engine.queue p); simpl; auto.
    + destruct (parse job); simpl; auto.
    + destruct (Engine.unfinished_tasks p) eqn:Hu; simpl; [auto|].
      intros Hpast. specialize (Hs Hpast). done.
Qed.

Lemma settled_run sched s :
  inv s → settled s → settled (Engine.run parse reduce sched s).
Proof.
  revert s. induction sched as [|t sched IH]; intros s Hi Hs; [done|].
  rewrite run_cons. apply IH; [by apply invariant_step|by apply settled_step].
Qed.

Lemma owing_nil (cs : list (Engine.consumer Job Result)) :
  flat_map owing cs = [] → cs = repeat Engine.AtGet (length cs).
Proof.
  induction cs as [|c cs IH]; simpl; [done|].
  destruct c; simpl; try done. intros Hcs. by rewrite <- IH.
Qed.

Lemma held_putting_idle (n : nat) :
  flat_map (held (Job := Job) (Result := Result)) (repeat Engine.AtGet n) = []
  ∧ flat_map (putting (Job := Job) (Result := Result))
             (repeat Engine.AtGet n) = [].
Proof. induction n as [|n [IH1 IH2]]; simpl; done. Qed.

(** What holds of a batch once its caller is past [join]. *)
Lemma past_join_pool c sched :
  let s := Engine.run parse reduce sched (batch c jobs) in
  past_join (Engine.main s) →
  ∃ collected,
    caller_ok reduce (length jobs) (Engine.main s) collected
    ∧ Engine.queue (Engine.self_pool s) = []
    ∧ Engine.unfinished_tasks (Engine.self_pool s) = O
    ∧ Engine.consumers (Engine.self_pool s) = repeat Engine.AtGet c
    ∧ flat_map (success parse) jobs
      ≡ₚ collected ++ Engine.results (Engine.self_pool s).
Proof.
  intros s Hpast.
  assert (Hinv : inv s) by apply invariant_run, invariant_batch.
  assert (Hset : settled s).
  { apply settled_run; [apply invariant_batch|]. by intros []. }
  specialize (Hset Hpast).
  destruct Hinv as (collected & Hm & Hcount & Hperm).
  rewrite Hset in Hcount.
  assert (Hq : Engine.queue (Engine.self_pool s) = []).
  { destruct (Engine.queue (Engine.self_pool s)); [done|simpl in *; lia]. }
  assert (Ho : flat_map owing (Engine.consumers (Engine.self_pool s)) = []).
  { destruct (flat_map owing _); [done|]. rewrite Hq in Hcount. simpl in *. lia. }
  apply owing_nil in Ho.
  subst s. rewrite run_consumers_length in Ho. simpl in Ho.
  rewrite repeat_length in Ho.
  exists collected. repeat split; try done.
  unfold ledger in Hperm. cbv zeta in Hperm.
  rewrite Ho, Hq in Hperm.
  destruct (held_putting_idle c) as [-> ->] in Hperm.
  destruct (Engine.main _); simpl in *; try done;
    by rewrite Hperm, !app_nil_r.
Qed.

Lemma failure_perm (a b : list Job) :
  a ≡ₚ b →
  length (flat_map (failure parse) a) = length (flat_map (failure parse) b).
Proof. intros Hab. apply Permutation_length, Permutation_flat_map, Hab. Qed.

Lemma failures_step t s :
  inv s → failures_accounted parse jobs s →
  failures_accounted parse jobs (Engine.step parse reduce t s).
Proof.
  intros (collected & Hm & Hcount & _).
  destruct s as [m p]. unfold failures_accounted. simpl in *.
  intros Hf. destruct t as [|n]; simpl.
  - unfold Engine.caller_step. simpl.
    destruct m as [[|job rest] next|count|[|k] out|out|v|e]; simpl in *;
      try done.
    + by destruct next.
    + rewrite Hf. by rewrite <- (app_assoc (Engine.queue p)).
    + destruct (Engine.unfinished_tasks p); [destruct count|]; done.
    + by destruct (Engine.results p).
    + by destruct (reduce out).
  - unfold Engine.consumer_step. simpl.
    destruct (Engine.consumers p !! n) as [c|] eqn:Hc; [|done].
    destruct (flat_map_insert (held (Result := Result)) _ n c Hc)
      as (H & HH & HH').
    destruct (flat_map_insert (failed (Job := Job) (Result := Result)) _ n c Hc)
      as (F & HF & HF').
    destruct (flat_map_insert owing _ n c Hc) as (O & HO & _).
    rewrite HO in Hcount.
    assert (Hheld : ∀ c' rest,
               length (flat_map (failure parse)
                         (flat_map held (<[n:=c']> (Engine.consumers p)) ++ rest))
               = (length (flat_map (failure parse) (held c'))
                  + length (flat_map (failure parse) H)
                  + length (flat_map (failure parse) rest))%nat).
    { intros c' rest. rewrite flat_map_app, length_app.
      rewrite (failure_perm _ _ (HH' c')), flat_map_app, length_app. lia. }
    assert (Hfailed : ∀ c', length (flat_map failed (<[n:=c']> (Engine.consumers p)))
                            = (length (failed c') + length F)%nat).
    { intros c'. by rewrite HF', length_app. }
    rewrite flat_map_app, length_app in Hf.
    rewrite (failure_perm _ _ HH), flat_map_app, length_app in Hf.
    rewrite HF, length_app in Hf.
    destruct c as [|job|r|e| |e]; simpl in *.
    + destruct (Engine.queue p) as [|job rest] eqn:Hq; simpl in *;
        rewrite Hfailed, Hheld, ?Hq; simpl in *;
        rewrite ?length_app in *; first [exact Hf|simpl in *; lia].
    + assert (Hj : length (failure parse job)
                   = match parse job with inl _ => 1%nat | inr _ => 0%nat end)
        by (unfold failure; by destruct (parse job)).
      rewrite length_app in Hf.
      destruct (parse job) as [e|r] eqn:Hparse; simpl;
        rewrite Hfailed, Hheld; simpl in *; lia.
    + rewrite Hfailed, Hheld; simpl in *; lia.
    + rewrite Hfailed, Hheld; simpl in *; lia.
    + destruct (Engine.unfinished_tasks p) as [|u] eqn:Hu; simpl in *; [lia|].
      rewrite Hfailed, Hheld; simpl in *; lia.
    + rewrite Hfailed, Hheld; simpl in *; lia.
Qed.

Lemma failures_run sched s :
  inv s → failures_accounted parse jobs s →
  failures_accounted parse jobs (Engine.run parse reduce sched s).
Proof.
  revert s. induction sched as [|t sched IH]; intros s Hi Hs; [done|].
  rewrite run_cons. apply IH; [by apply invariant_step|by apply failures_step].
Qed.

Lemma failures_batch c :
  failures_accounted (Out := Out) parse jobs (batch c jobs).
Proof.
  unfold failures_accounted, batch. simpl.
  destruct (held_putting_idle c) as [-> _].
  assert (flat_map (failed (Job := Job) (Result := Result))
                   (repeat Engine.AtGet c) = []) as ->
    by (induction c; simpl; done).
  done.
Qed.

Lemma failure_nil (js : list Job) :
  flat_map (failure parse) js = [] →
  ∀ job, job ∈ js → ∃ r, parse job = inr r.
Proof.
  induction js as [|j js IH]; intros Hnil job Hjob; [inversion Hjob|].
  simpl in Hnil. apply app_eq_nil in Hnil as [Hj Hjs].
  apply elem_of_cons in Hjob as [->|Hjob]; [|by apply IH].
  unfold failure in Hj. destruct (parse j) as [|r]; [done|by exists r].
Qed.

Lemma failure_all_succeed (js : list Job) :
  (∀ job, job ∈ js → ∃ r, parse job = inr r) →
  flat_map (failure parse) js = [].
Proof.
  induction js as [|j js IH]; intros Hall; simpl; [done|].
  rewrite IH by (intros job Hjob; apply Hall; by right).
  unfold failure. destruct (Hall j) as [r ->]; [by left|done].
Qed.

End Barrier.

Section BarrierTheorems.
Context {Job Result Out : Type}.
Variable parse : Job → Py.result Result.
Variable reduce : list Result → Py.result Out.
Variable jobs : list Job.

Lemma success_length_all :
  (∀ job, job ∈ jobs → ∃ r, parse job = inr r) →
  length (flat_map (success parse) jobs) = length jobs.
Proof.
  induction jobs as [|j js IH]; intros Hall; simpl; [done|].
  rewrite length_app, IH by (intros job Hjob; apply Hall; by right).
  unfold success. destruct (Hall j) as [r ->]; [by left|done].
Qed.

Lemma past_join_all_succeed c sched :
  past_join (Engine.main (Engine.run parse reduce sched (batch c jobs))) →
  ∀ job, job ∈ jobs → ∃ r, parse job = inr r.
Proof.
  intros Hpast.
  destruct (past_join_pool parse reduce jobs c sched Hpast)
    as (collected & Hm & Hq & Hu & Hcs & _).
  pose proof (failures_run parse reduce jobs sched _
                (invariant_batch parse reduce jobs c)
                (failures_batch parse jobs c)) as Hf.
  unfold failures_accounted in Hf. cbv zeta in Hf.
  rewrite Hcs, Hq in Hf.
  destruct (held_putting_idle (Job := Job) (Result := Result) c) as [Hh _].
  rewrite Hh in Hf.
  assert (Hfl : flat_map (failed (Job := Job) (Result := Result))
                         (repeat Engine.AtGet c) = [])
    by (clear; induction c; simpl; done).
  rewrite Hfl in Hf.
  assert (Hp : pending (Engine.main
                 (Engine.run parse reduce sched (batch c jobs))) = [])
    by (destruct (Engine.main _); simpl in *; done).
  rewrite Hp in Hf. simpl in Hf.
  apply failure_nil. by destruct (flat_map (failure parse) jobs).
Qed.

(** X3. [queue.join()] is a barrier: once the caller of a batch is past
    it, [parse] has returned for every job of the batch, the queue is
    empty with no task unfinished, every consumer is back in
    [queue.get()], and the results collected so far together with those
    in [self.results] are the results of the jobs, each once; so each
    [results.get()] of the collecting comprehension finds a result. *)
Theorem join_waits_for_every_job (c : nat) (sched : list thread) :
  let s := Engine.run parse reduce sched (batch c jobs) in
  past_join (Engine.main s) →
  (∀ job, job ∈ jobs → ∃ r, parse job = inr r)
  ∧ Engine.queue (Engine.self_pool s) = []
  ∧ Engine.unfinished_tasks (Engine.self_pool s) = O
  ∧ Engine.consumers (Engine.self_pool s) = repeat Engine.AtGet c
  ∧ (∀ k output,
       Engine.main s = Engine.Collecting k output →
       output ++ Engine.results (Engine.self_pool s)
       ≡ₚ flat_map (success parse) jobs
       ∧ length (Engine.results (Engine.self_pool s)) = k).
Proof.
  intros s Hpast.
  pose proof (past_join_all_succeed c sched Hpast) as Hall.
  destruct (past_join_pool parse reduce jobs c sched Hpast)
    as (collected & Hm & Hq & Hu & Hcs & Hperm).
  fold s in Hm, Hq, Hu, Hcs, Hperm.
  do 4 (split; [done|]).
  intros k output Hmain. rewrite Hmain in Hm. simpl in Hm.
  destruct Hm as [-> Hk]. split; [by rewrite Hperm|].
  apply Permutation_length in Hperm.
  rewrite success_length_all, length_app in Hperm by done. lia.
Qed.

(** X4. When a query method has returned or raised after its batch, the
    pool is as it was before the batch: the queue and [self.results] are
    empty, no task is unfinished and all consumers wait in
    [queue.get()]. *)
Theorem pool_idle_when_finished (c : nat) (sched : list thread) :
  let s := Engine.run parse reduce sched (batch c jobs) in
  finished (Engine.main s) →
  Engine.self_pool s = Example.pool c.
Proof.
  intros s Hfin.
  assert (Hpast : past_join (Engine.main s))
    by (destruct (Engine.main s); simpl in *; done).
  destruct (past_join_pool parse reduce jobs c sched Hpast)
    as (collected & Hm & Hq & Hu & Hcs & Hperm).
  fold s in Hm, Hq, Hu, Hcs, Hperm.
  assert (Hlen : length collected = length jobs)
    by (destruct (Engine.main s); simpl in *; try done; by destruct Hm).
  pose proof (success_length parse jobs) as Hle.
  apply Permutation_length in Hperm. rewrite length_app in Hperm.
  assert (Hres : Engine.results (Engine.self_pool s) = []).
  { destruct (Engine.results (Engine.self_pool s)); [done|simpl in *; lia]. }
  destruct (Engine.self_pool s). simpl in *. unfold Example.pool.
  by subst.
Qed.

Lemma terminated_reason_step t (s : Engine.system Job Result Out) :
  invariant parse reduce jobs s →
  Forall (λ c, ∀ e, c = Engine.Terminated e → e = Py.NameError "warn")
         (Engine.consumers (Engine.self_pool s)) →
  Forall (λ c, ∀ e, c = Engine.Terminated e → e = Py.NameError "warn")
         (Engine.consumers (Engine.self_pool (Engine.step parse reduce t s))).
Proof.
  intros (collected & Hm & Hcount & _) Hall.
  destruct s as [m p]. simpl in *. destruct t as [|n]; simpl.
  - unfold Engine.caller_step. simpl.
    destruct m as [[|job rest] next|count|[|k] out|out|v|e]; simpl; try done.
    + destruct (Engine.unfinished_tasks p); [destruct count|]; done.
    + by destruct (Engine.results p).
    + by destruct (reduce out).
  - unfold Engine.consumer_step. simpl.
    destruct (Engine.consumers p !! n) as [c|] eqn:Hc; [|done].
    destruct (flat_map_insert owing _ n c Hc) as (O & HO & _).
    rewrite HO in Hcount.
    pose proof (consume_consumers parse c p) as Hcs.
    destruct (Engine._consume parse c p) as [c' p'] eqn:Hstep. simpl in *.
    rewrite Hcs. apply Forall_insert; [done|].
    intros e ->.
    destruct c as [|job|r|e'| |e']; simpl in *.
    + by destruct (Engine.queue p).
    + by destruct (parse job).
    + done.
    + by injection Hstep as <- _.
    + destruct (Engine.unfinished_tasks p); [simpl in *; lia|done].
    + injection Hstep as <- _.
      eapply Forall_lookup_1 in Hall; [|exact Hc]. by apply Hall.
Qed.

(** X5. A consumer thread is lost only to a job whose [parse] raises: at
    every point of every schedule the consumers that have caught an
    exception are at most as many as the jobs of the batch for which
    [parse] raises, so when it returns for all of them every consumer
    keeps running; and a consumer that has terminated has done so on the
    [NameError] of its handler, never on a [task_done()] too many. *)
Theorem consumers_lost_only_to_failures (c : nat) (sched : list thread) :
  let cs := Engine.consumers
              (Engine.self_pool
                 (Engine.run parse reduce sched (batch c jobs))) in
  (length (flat_map failed cs) ≤ length (flat_map (failure parse) jobs))%nat
  ∧ ((∀ job, job ∈ jobs → ∃ r, parse job = inr r) → Forall alive cs)
  ∧ Forall (λ c, ∀ e, c = Engine.Terminated e → e = Py.NameError "warn") cs.
Proof.
  intros cs.
  pose proof (failures_run parse reduce jobs sched _
                (invariant_batch parse reduce jobs c)
                (failures_batch parse jobs c)) as Hf.
  unfold failures_accounted in Hf. cbv zeta in Hf. fold cs in Hf.
  split; [lia|]. split.
  - intros Hall. rewrite (failure_all_succeed parse jobs Hall) in Hf.
    simpl in Hf.
    assert (Hnil : flat_map failed cs = [])
      by (destruct (flat_map failed cs); [done|simpl in *; lia]).
    clear -Hnil. induction cs as [|x xs IH]; [done|].
    simpl in Hnil. apply app_eq_nil in Hnil as [Hx Hxs].
    constructor; [by destruct x|by apply IH].
  - subst cs. clear Hf.
    assert (Hgen : ∀ s,
      invariant parse reduce jobs s →
      Forall (λ c, ∀ e, c = Engine.Terminated e → e = Py.NameError "warn")
             (Engine.consumers (Engine.self_pool s)) →
      Forall (λ c, ∀ e, c = Engine.Terminated e → e = Py.NameError "warn")
             (Engine.consumers
                (Engine.self_pool (Engine.run parse reduce sched s)))).
    { induction sched as [|t sched' IH]; intros s Hi Hs; [done|].
      rewrite run_cons. apply IH; [by apply invariant_step|].
      by apply terminated_reason_step. }
    apply Hgen; [apply invariant_batch|].
    simpl. clear. induction c; simpl; constructor; done.
Qed.

End BarrierTheorems.

Lemma join_waits_for_every_job_witness :
  let parse := λ job, BaseQuery.outcome
                        (Series.parse Example.service
                                      (Example.self Series.cls) job)
                        Example.heap in
  let jobs := ["PET.MB"; "ELEC.GEN"] in
  let sched := repeat Caller 3
               ++ repeat (Consumer 0) 4 ++ repeat (Consumer 1) 4
               ++ [Caller; Caller] in
  let s := Engine.run parse Series.reduce sched (batch 2 jobs) in
  (∀ job, job ∈ jobs → ∃ r, parse job = inr r)
  ∧ Engine.queue (Engine.self_pool s) = []
  ∧ Engine.unfinished_tasks (Engine.self_pool s) = O
  ∧ Engine.consumers (Engine.self_pool s) = repeat Engine.AtGet 2
  ∧ (∀ k output,
       Engine.main s = Engine.Collecting k output →
       output ++ Engine.results (Engine.self_pool s)
       ≡ₚ flat_map (success parse) jobs
       ∧ length (Engine.results (Engine.self_pool s)) = k).
Proof.
  intros parse jobs sched.
  apply (join_waits_for_every_job parse Series.reduce jobs 2 sched).
  vm_compute. exact I.
Defined.

Lemma pool_idle_when_finished_witness :
  let parse := λ job, BaseQuery.outcome
                        (Series.parse Example.service
                                      (Example.self Series.cls) job)
                        Example.heap in
  Engine.self_pool
    (Engine.run parse Series.reduce (one_by_one 2 ++ [Caller])
                (batch 2 ["PET.MB"; "ELEC.GEN"]))
  = Example.pool 2.
Proof.
  intros parse.
  apply (pool_idle_when_finished parse Series.reduce ["PET.MB"; "ELEC.GEN"] 2
           (one_by_one 2 ++ [Caller])).
  vm_compute. exact I.
Defined.

(** ** The returned comprehensions *)

Lemma getitem_contains d k v :
  Py.getitem d k = inr v → Py.contains d k = inr true.
Proof.
  destruct d; simpl; try done.
  destruct (Py.assoc k d); done.
Qed.

(** X6. The comprehension [[s for d in output for s in d[k] if k in d]]
    returns the concatenation of the [d[k]] of all payloads, or raises:
    the subscript comes before the condition, so a payload without the
    key (or one that is not a dict, such as the [None] of a swallowed
    error) is not skipped but makes the whole comprehension raise, with
    the exception of the first such payload met. *)
Theorem flatten_key_all_or_raise (k : string) (output : list Py.val) :
  match Py.flatten_key k output with
  | inr l =>
      ∃ parts,
        Forall2 (λ d items, ∃ v, Py.getitem d k = inr v ∧ Py.iter v = inr items)
                output parts
        ∧ l = concat parts
  | inl e =>
      ∃ good d rest,
        output = good ++ d :: rest
        ∧ Forall (λ d', ∃ v items, Py.getitem d' k = inr v
                                   ∧ Py.iter v = inr items) good
        ∧ (Py.getitem d k = inl e
           ∨ ∃ v, Py.getitem d k = inr v ∧ Py.iter v = inl e)
  end.
Proof.
  induction output as [|d output IH]; simpl.
  - exists []. split; [constructor|done].
  - destruct (Py.getitem d k) as [e|v] eqn:Hget; simpl.
    { exists [], d, output. split; [done|]. split; [constructor|by left]. }
    destruct (Py.iter v) as [e|items] eqn:Hiter; simpl.
    { exists [], d, output. split; [done|]. split; [constructor|].
      right. by exists v. }
    rewrite (getitem_contains d k v Hget). simpl.
    destruct (Py.flatten_key k output) as [e|l]; simpl.
    + destruct IH as (good & d' & rest & -> & Hgood & Hd').
      exists (d :: good), d', rest. split; [done|]. split; [|done].
      constructor; [|done]. by exists v, items.
    + destruct IH as (parts & Hparts & ->).
      exists (items :: parts). split; [|done].
      constructor; [|done]. by exists v.
Qed.

Lemma flatten_lists (parts : list (list Py.val)) :
  Py.flatten (map Py.List parts) = inr (concat parts).
Proof.
  induction parts as [|p parts IH]; simpl; [done|]. by rewrite IH.
Qed.

Lemma flatten_key_lists (k : string) (ds : list Py.val)
      (parts : list (list Py.val)) :
  Forall2 (λ d items, Py.getitem d k = inr (Py.List items)) ds parts →
  Py.flatten_key k ds = inr (concat parts).
Proof.
  induction 1 as [|d items ds parts Hd _ IH]; simpl; [done|].
  rewrite Hd. simpl. rewrite (getitem_contains _ _ _ Hd). simpl.
  by rewrite IH.
Qed.

(** ** A batch of id chunks whose requests are all answered *)

Section Answered.
Variable parse : string → Py.result Py.val.
Variable k : string.
Variable f : string → Py.val.
Variable g : string → list Py.val.
Variable jobs : list string.
Variable c : nat.

Hypothesis answered :
  ∀ job, job ∈ jobs →
         parse job = inr (f job) ∧ Py.getitem (f job) k = inr (Py.List (g job)).

Let reduce (output : list Py.val) : Py.result Py.val :=
  Py.bind (Py.flatten_key k output) (λ l, Py.ret (Py.List l)).

Lemma reduce_in_order (order : list string) :
  order ≡ₚ jobs →
  reduce (map f order) = inr (Py.List (concat (map g order))).
Proof.
  intros Hperm. unfold reduce.
  rewrite (flatten_key_lists k (map f order) (map g order)); [done|].
  assert (Hin : ∀ job, job ∈ order → job ∈ jobs)
    by (intros job Hjob; by rewrite <- Hperm).
  clear Hperm. induction order as [|j order IH]; simpl; constructor.
  - apply answered, Hin. by left.
  - apply IH. intros job Hjob. apply Hin. by right.
Qed.

Lemma answered_parse job : job ∈ jobs → parse job = inr (f job).
Proof. intros Hjob. by apply answered. Qed.

Lemma answered_returns sched v :
  Engine.main (Engine.run parse reduce sched (batch c jobs))
  = Engine.Returned v →
  ∃ order, order ≡ₚ jobs ∧ v = Py.List (concat (map g order)).
Proof.
  intros Hmain.
  destruct (invariant_run parse reduce jobs sched _
              (invariant_batch parse reduce jobs c))
    as (collected & Hm & _ & Hledger).
  rewrite Hmain in Hm. simpl in Hm. destruct Hm as [Hlen Hred].
  pose proof (collected_is_permutation parse f jobs _ collected
                answered_parse Hlen Hledger) as Hperm.
  apply Permutation_map_inv in Hperm as (order & -> & Horder).
  exists order. split; [done|].
  rewrite reduce_in_order in Hred by done. by injection Hred.
Qed.

Lemma answered_never_raises sched e :
  Engine.main (Engine.run parse reduce sched (batch c jobs))
  ≠ Engine.Raised e.
Proof.
  intros Hmain.
  destruct (invariant_run parse reduce jobs sched _
              (invariant_batch parse reduce jobs c))
    as (collected & Hm & _ & Hledger).
  rewrite Hmain in Hm. simpl in Hm. destruct Hm as [Hlen Hred].
  pose proof (collected_is_permutation parse f jobs _ collected
                answered_parse Hlen Hledger) as Hperm.
  apply Permutation_map_inv in Hperm as (order & -> & Horder).
  by rewrite reduce_in_order in Hred.
Qed.

Lemma answered_one_by_one :
  (0 < c)%nat →
  Engine.main (Engine.run parse reduce (one_by_one (length jobs) ++ [Caller])
                          (batch c jobs))
  = Engine.Returned (Py.List (concat (map g jobs))).
Proof.
  intros Hc. destruct c as [|c']; [lia|].
  rewrite run_app, (run_one_by_one parse reduce f jobs c' answered_parse).
  rewrite run_cons. simpl. unfold Engine.caller_step. simpl.
  by rewrite reduce_in_order.
Qed.

End Answered.

Lemma series_pending_batch c series_ids h :
  pending (Engine.main (Series.query (Example.pool c) series_ids h)) ≠ [] →
  Series.query (Example.pool c) series_ids h
  = batch c (pending (Engine.main (Series.query (Example.pool c) series_ids h))).
Proof.
  pose proof (chunk_closed series_ids 100 ltac:(lia)) as Hcs.
  set (cs := map _ _) in Hcs.
  rewrite (series_query_main _ _ _ cs Hcs). simpl. intros Hne.
  rewrite <- (series_query_main (Example.pool c) series_ids h cs Hcs).
  apply series_query_batch; [done|]. by destruct cs.
Qed.

(** X7. When every chunk of a non-empty [Series.query] is answered with a
    payload whose [series] member is a list, the query never raises; what
    it returns, under whatever schedule it returns, is the concatenation
    of those lists taken chunk by chunk in some order of the chunks, and
    in submission order when one consumer serves the chunks one after
    another. *)
Theorem series_query_returns_all_series (W : world)
        (self : BaseQuery.instance) (h0 h : gmap nat (gmap string Py.val))
        (c : nat) (series_ids : list string)
        (f : string → Py.val) (g : string → list Py.val) :
  let query := Series.query (Example.pool c) series_ids h0 in
  let jobs := pending (Engine.main query) in
  jobs ≠ [] →
  (∀ job, job ∈ jobs →
          BaseQuery.outcome (Series.parse W self job) h = inr (f job)
          ∧ Py.getitem (f job) "series" = inr (Py.List (g job))) →
  (∀ sched v,
     Engine.main (Series.run W self h sched query) = Engine.Returned v →
     ∃ order, order ≡ₚ jobs ∧ v = Py.List (concat (map g order)))
  ∧ (∀ sched e,
       Engine.main (Series.run W self h sched query) ≠ Engine.Raised e)
  ∧ ((0 < c)%nat →
     Engine.main (Series.run W self h (one_by_one (length jobs) ++ [Caller])
                             query)
     = Engine.Returned (Py.List (concat (map g jobs)))).
Proof.
  intros query jobs Hne Hall. subst query jobs.
  rewrite (series_pending_batch c series_ids h0 Hne) in *.
  simpl pending in *. unfold Series.run.
  split; [|split].
  - intros sched v. by apply (answered_returns _ "series" f g _ c Hall).
  - intros sched e. by apply (answered_never_raises _ "series" f g _ c Hall).
  - by apply (answered_one_by_one _ "series" f g _ c Hall).
Qed.

Lemma series_query_returns_all_series_witness :
  let query := Series.query (Example.pool 2) (repeat "A" 100 ++ ["B"])
                            Example.heap in
  let jobs := pending (Engine.main query) in
  let run := Series.run Example.service (Example.self Series.cls)
                        Example.heap in
  let g := λ job, [Py.Str job] in
  (∀ sched v,
     Engine.main (run sched query) = Engine.Returned v →
     ∃ order, order ≡ₚ jobs ∧ v = Py.List (concat (map g order)))
  ∧ (∀ sched e, Engine.main (run sched query) ≠ Engine.Raised e)
  ∧ ((0 < 2)%nat →
     Engine.main (run (one_by_one (length jobs) ++ [Caller]) query)
     = Engine.Returned (Py.List (concat (map g jobs)))).
Proof.
  intros query jobs run g.
  apply (series_query_returns_all_series Example.service
           (Example.self Series.cls) Example.heap Example.heap 2
           (repeat "A" 100 ++ ["B"])
           (λ job, Py.Dict [("series", Py.List [Py.Str job])]) g).
  - vm_compute. discriminate.
  - intros job Hjob.
    assert (Hjobs : pending (Engine.main
                      (Series.query (Example.pool 2)
                                    (repeat "A" 100 ++ ["B"]) Example.heap))
                    = [Py.join ";" (repeat "A" 100); "B"])
      by (vm_compute; reflexivity).
    rewrite Hjobs in Hjob.
    decompose_list_elem_of; subst job; vm_compute; split; reflexivity.
Defined.

(** X8. [SeriesCategory.query] does the same with the
    [series_categories] member of the payloads. *)
Theorem series_category_query_returns_all (W : world)
        (self : BaseQuery.instance) (h0 h : gmap nat (gmap string Py.val))
        (c : nat) (series_ids : list string)
        (f : string → Py.val) (g : string → list Py.val) :
  let query := SeriesCategory.query (Example.pool c) series_ids h0 in
  let jobs := pending (Engine.main query) in
  jobs ≠ [] →
  (∀ job, job ∈ jobs →
          BaseQuery.outcome (SeriesCategory.parse W self job) h = inr (f job)
          ∧ Py.getitem (f job) "series_categories" = inr (Py.List (g job))) →
  (∀ sched v,
     Engine.main (SeriesCategory.run W self h sched query)
     = Engine.Returned v →
     ∃ order, order ≡ₚ jobs ∧ v = Py.List (concat (map g order)))
  ∧ (∀ sched e,
       Engine.main (SeriesCategory.run W self h sched query)
       ≠ Engine.Raised e)
  ∧ ((0 < c)%nat →
     Engine.main (SeriesCategory.run W self h
                    (one_by_one (length jobs) ++ [Caller]) query)
     = Engine.Returned (Py.List (concat (map g jobs)))).
Proof.
  intros query jobs Hne Hall. subst query jobs.
  change (SeriesCategory.query (Example.pool c) series_ids h0)
    with (Series.query (Example.pool c) series_ids h0) in *.
  rewrite (series_pending_batch c series_ids h0 Hne) in *.
  simpl pending in *. unfold SeriesCategory.run.
  split; [|split].
  - intros sched v. by apply (answered_returns _ "series_categories" f g _ c Hall).
  - intros sched e. by apply (answered_never_raises _ "series_categories" f g _ c Hall).
  - by apply (answered_one_by_one _ "series_categories" f g _ c Hall).
Qed.

Lemma series_category_query_returns_all_witness :
  let query := SeriesCategory.query (Example.pool 2) ["PET.MB"; "ELEC.GEN"]
                                    Example.heap in
  let jobs := pending (Engine.main query) in
  let run := SeriesCategory.run Sample.service
                                (Example.self SeriesCategory.cls)
                                Example.heap in
  let g := λ job, [Sample.categories job] in
  (∀ sched v,
     Engine.main (run sched query) = Engine.Returned v →
     ∃ order, order ≡ₚ jobs ∧ v = Py.List (concat (map g order)))
  ∧ (∀ sched e, Engine.main (run sched query) ≠ Engine.Raised e)
  ∧ ((0 < 2)%nat →
     Engine.main (run (one_by_one (length jobs) ++ [Caller]) query)
     = Engine.Returned (Py.List (concat (map g jobs)))).
Proof.
  intros query jobs run g.
  apply (series_category_query_returns_all Sample.service
           (Example.self SeriesCategory.cls) Example.heap Example.heap 2
           ["PET.MB"; "ELEC.GEN"]
           (λ job, Py.Dict [("series_categories",
                             Py.List [Sample.categories job])]) g).
  - vm_compute. discriminate.
  - intros job Hjob.
    assert (Hjobs : pending (Engine.main
                      (SeriesCategory.query (Example.pool 2)
                                            ["PET.MB"; "ELEC.GEN"]
                                            Example.heap))
                    = ["PET.MB;ELEC.GEN"])
      by (vm_compute; reflexivity).
    rewrite Hjobs in Hjob.
    decompose_list_elem_of; subst job; vm_compute; split; reflexivity.
Defined.

(** ** A pool with a single consumer *)

Section Single.
Context {Job Result Out : Type}.
Variable parse : Job → Py.result Result.
Variable reduce : list Result → Py.result Out.
Variable jobs : list Job.

(** With one consumer the results exist in submission order, from the
    caller's list back to the jobs still to be put. *)
Lemma in_order_step t (s : Engine.system Job Result Out) :
  (∃ w collected,
     Engine.consumers (Engine.self_pool s) = [w]
     ∧ caller_ok reduce (length jobs) (Engine.main s) collected
     ∧ flat_map (success parse) jobs
       = collected ++ Engine.results (Engine.self_pool s) ++ putting w
         ++ flat_map (success parse)
              (held w ++ Engine.queue (Engine.self_pool s)
               ++ pending (Engine.main s))) →
  ∃ w collected,
    Engine.consumers (Engine.self_pool (Engine.step parse reduce t s)) = [w]
    ∧ caller_ok reduce (length jobs)
                (Engine.main (Engine.step parse reduce t s)) collected
    ∧ flat_map (success parse) jobs
      = collected
        ++ Engine.results (Engine.self_pool (Engine.step parse reduce t s))
        ++ putting w
        ++ flat_map (success parse)
             (held w
              ++ Engine.queue (Engine.self_pool (Engine.step parse reduce t s))
              ++ pending (Engine.main (Engine.step parse reduce t s))).
Proof.
  intros (w & collected & Hcs & Hm & Heq).
  destruct s as [m p]. simpl in *. destruct t as [|n]; simpl.
  - unfold Engine.caller_step. simpl.
    destruct m as [pend next|count|k out|out|v|e]; simpl in *.
    + destruct next as [| count | | | |]; try (by destruct pend).
      destruct pend as [|job rest]; simpl in *.
      * by exists w, collected.
      * exists w, collected. split; [done|]. split; [done|].
        rewrite Heq. by rewrite <- (app_assoc (Engine.queue p)).
    + destruct Hm as [-> ->].
      destruct (Engine.unfinished_tasks p) eqn:Hu; simpl.
      * exists w, []. split; [done|]. split; [|done].
        split; [done|]. rewrite length_range_nat. simpl. lia.
      * by exists w, [].
    + destruct Hm as [-> Hk]. destruct k as [|k]; simpl.
      * exists w, out. split; [done|]. split; [|done]. split; [done|lia].
      * destruct (Engine.results p) as [|r rest] eqn:Hres; simpl.
        -- exists w, out. by rewrite Hres.
        -- exists w, (out ++ [r]). split; [done|]. split.
           ++ split; [done|]. rewrite length_app. simpl. lia.
           ++ rewrite Heq. by rewrite <- app_assoc.
    + destruct Hm as [-> Hlen].
      destruct (reduce out) eqn:Hred; simpl; by exists w, out.
    + by exists w, collected.
    + by exists w, collected.
  - unfold Engine.consumer_step. simpl. rewrite Hcs.
    destruct n as [|n]; simpl; [|by exists w, collected; rewrite Hcs].
    destruct w as [|job|r|e| |e]; simpl in *.
    + destruct (Engine.queue p) as [|job rest] eqn:Hq; simpl;
        rewrite ?Hcs, ?Hq; simpl.
      * by exists Engine.AtGet, collected.
      * by exists (Engine.AtParse job), collected.
    + destruct (parse job) as [e|r] eqn:Hparse; simpl; rewrite ?Hcs; simpl.
      * exists (Engine.AtWarn e), collected. split; [done|]. split; [done|].
        rewrite Heq. unfold success at 1. by rewrite Hparse.
      * exists (Engine.AtPut r), collected. split; [done|]. split; [done|].
        rewrite Heq. unfold success at 1. by rewrite Hparse.
    + rewrite ?Hcs; simpl.
      exists Engine.AtTaskDone, collected. split; [done|]. split; [done|].
      rewrite Heq. simpl. by rewrite <- app_assoc.
    + rewrite ?Hcs; simpl.
      by exists (Engine.Terminated (Py.NameError "warn")), collected.
    + destruct (Engine.unfinished_tasks p); simpl; rewrite ?Hcs; simpl.
      * by exists (Engine.Terminated Py.ValueError), collected.
      * by exists Engine.AtGet, collected.
    + rewrite ?Hcs; simpl. by exists (Engine.Terminated e), collected.
Qed.

Lemma in_order_run sched :
  ∃ w collected,
    let s := Engine.run parse reduce sched (batch 1 jobs) in
    Engine.consumers (Engine.self_pool s) = [w]
    ∧ caller_ok reduce (length jobs) (Engine.main s) collected
    ∧ flat_map (success parse) jobs
      = collected ++ Engine.results (Engine.self_pool s) ++ putting w
        ++ flat_map (success parse)
             (held w ++ Engine.queue (Engine.self_pool s)
              ++ pending (Engine.main s)).
Proof.
  assert (Hgen : ∀ s,
    (∃ w collected,
       Engine.consumers (Engine.self_pool s) = [w]
       ∧ caller_ok reduce (length jobs) (Engine.main s) collected
       ∧ flat_map (success parse) jobs
         = collected ++ Engine.results (Engine.self_pool s) ++ putting w
           ++ flat_map (success parse)
                (held w ++ Engine.queue (Engine.self_pool s)
                 ++ pending (Engine.main s))) →
    ∃ w collected,
       Engine.consumers (Engine.self_pool (Engine.run parse reduce sched s))
       = [w]
       ∧ caller_ok reduce (length jobs)
                   (Engine.main (Engine.run parse reduce sched s)) collected
       ∧ flat_map (success parse) jobs
         = collected
           ++ Engine.results (Engine.self_pool (Engine.run parse reduce sched s))
           ++ putting w
           ++ flat_map (success parse)
                (held w
                 ++ Engine.queue
                      (Engine.self_pool (Engine.run parse reduce sched s))
                 ++ pending (Engine.main (Engine.run parse reduce sched s)))).
  { induction sched as [|t sched' IH]; intros s Hs; [done|].
    rewrite run_cons. by apply IH, in_order_step. }
  apply Hgen. by exists Engine.AtGet, [].
Qed.

(** X9. With [consumers = 1] the results are collected in submission
    order under every schedule: when the collecting comprehension is
    complete its list is the list of the jobs' results in the order of
    the jobs, and what the method returns or raises is what the reduction
    of that list returns or raises. *)
Theorem single_consumer_keeps_order (f : Job → Result) (sched : list thread) :
  (∀ job, job ∈ jobs → parse job = inr (f job)) →
  let m := Engine.main (Engine.run parse reduce sched (batch 1 jobs)) in
  (∀ output, m = Engine.Reducing output → output = map f jobs)
  ∧ (∀ v, m = Engine.Returned v → reduce (map f jobs) = inr v)
  ∧ (∀ e, m = Engine.Raised e → reduce (map f jobs) = inl e).
Proof.
  intros Hall m.
  destruct (in_order_run sched) as (w & collected & Hcs & Hm & Heq).
  cbv zeta in *. fold m in Hm, Heq.
  rewrite (success_all parse f jobs Hall) in Heq.
  assert (Hfull : length collected = length jobs → collected = map f jobs).
  { intros Hlen. set (rest := Engine.results _ ++ _) in Heq.
    apply (f_equal length) in Heq as Hl.
    rewrite length_map, length_app in Hl.
    destruct rest; [|simpl in Hl; lia].
    by rewrite app_nil_r in Heq. }
  split; [|split].
  - intros output Hmain. rewrite Hmain in Hm. simpl in Hm.
    destruct Hm as [-> Hlen]. by apply Hfull.
  - intros v Hmain. rewrite Hmain in Hm. simpl in Hm.
    destruct Hm as [Hlen Hred]. by rewrite <- Hfull.
  - intros e Hmain. rewrite Hmain in Hm. simpl in Hm.
    destruct Hm as [Hlen Hred]. by rewrite <- Hfull.
Qed.

End Single.

Lemma single_consumer_keeps_order_witness :
  let parse := λ job, BaseQuery.outcome
                        (Series.parse Example.service
                                      (Example.self Series.cls) job)
                        Example.heap in
  let f := λ job, Py.Dict [("series", Py.List [Py.Str job])] in
  let jobs := ["PET.MB"; "ELEC.GEN"] in
  let m := Engine.main (Engine.run parse Series.reduce
                                   (one_by_one 2 ++ [Caller])
                                   (batch 1 jobs)) in
  (∀ output, m = Engine.Reducing output → output = map f jobs)
  ∧ (∀ v, m = Engine.Returned v → Series.reduce (map f jobs) = inr v)
  ∧ (∀ e, m = Engine.Raised e → Series.reduce (map f jobs) = inl e).
Proof.
  intros parse f jobs.
  apply (single_consumer_keeps_order parse Series.reduce jobs f
           (one_by_one 2 ++ [Caller])).
  intros job Hjob. subst jobs.
  decompose_list_elem_of; subst job; vm_compute; reflexivity.
Defined.

(** ** [get] and [post] across calls and error statuses *)

(** X10. However many [get] calls are made on an instance, and whatever
    they return or raise, each sends exactly its own keyword arguments
    laid over the same defaults: nothing of one call reaches the next,
    and the defaults and every dict that existed before are unchanged at
    the end. *)
Theorem gets_do_not_interfere {Job : Type} (W : world)
        (self : BaseQuery.instance) (calls : list (gmap string Py.val))
        (d : gmap string Py.val) (h : gmap nat (gmap string Py.val)) :
  h !! BaseQuery.default_params self = Some d →
  ∃ h',
    get_each (Job := Job) W self calls h
    = (h', map (λ kwargs, Get (BaseQuery.base_url self) (kwargs ∪ d)) calls)
    ∧ h' !! BaseQuery.default_params self = Some d
    ∧ (∀ l x, h !! l = Some x → h' !! l = Some x).
Proof.
  revert h. induction calls as [|kwargs calls IH]; intros h Hd; simpl.
  - by exists h.
  - rewrite get_run. rewrite Hd. simpl.
    assert (Hfresh : ∀ l x, h !! l = Some x → fresh (dom h) ≠ l).
    { intros l x Hl <-.
      apply (is_fresh (dom h)). apply elem_of_dom. by eexists. }
    destruct (IH (<[fresh (dom h) := kwargs ∪ d]> h)) as (h' & Heach & Hd' & Hold).
    { rewrite lookup_insert_ne; [done|]. by eapply Hfresh. }
    rewrite Heach. exists h'. split; [done|]. split; [done|].
    intros l x Hl. apply Hold.
    rewrite lookup_insert_ne; [done|]. by eapply Hfresh.
Qed.

Lemma gets_do_not_interfere_witness :
  ∃ h',
    get_each (Job := unit) Example.service (Example.self Updates.cls)
             [{[ "out" := Py.Str "xml" ]}; {[ "rows" := Py.Int 1 ]}]
             Example.heap
    = (h', map (λ kwargs,
                  Get (BaseQuery.base_url (Example.self Updates.cls))
                      (kwargs ∪ {[ "api_key" := Py.Str "KEY";
                                   "out" := Py.Str "json" ]}))
               [{[ "out" := Py.Str "xml" ]}; {[ "rows" := Py.Int 1 ]}])
    ∧ h' !! BaseQuery.default_params (Example.self Updates.cls)
      = Some {[ "api_key" := Py.Str "KEY"; "out" := Py.Str "json" ]}
    ∧ (∀ l x, Example.heap !! l = Some x → h' !! l = Some x).
Proof.
  apply (gets_do_not_interfere (Job := unit) Example.service
           (Example.self Updates.cls)).
  reflexivity.
Defined.

(** X11. [post] sends the default dict itself as the query parameters and
    [data] as the body, and touches no dict. It raises only when the
    transport raises; for a response with an error status or a body that
    is not JSON, where [get] raises [HTTPError] or [ValueError], [post]
    returns [None]. *)
Theorem post_returns_none_where_get_raises {Job : Type} (W : world)
        (self : BaseQuery.instance) (data kwargs d : gmap string Py.val)
        (h : gmap nat (gmap string Py.val)) :
  h !! BaseQuery.default_params self = Some d →
  ∃ res,
    BaseQuery.post (Job := Job) W self data h
    = (h, [Post (BaseQuery.base_url self) d data], res)
    ∧ match requests_post W (BaseQuery.base_url self) d data with
      | None => res = inl Py.ConnectionError
      | Some r =>
          res = inr (if ok r then default Py.None_ (json r) else Py.None_)
      end
    ∧ match requests_get W (BaseQuery.base_url self) (kwargs ∪ d) with
      | None =>
          BaseQuery.outcome (BaseQuery.get (Job := Job) W self kwargs) h
          = inl Py.ConnectionError
      | Some r =>
          BaseQuery.outcome (BaseQuery.get (Job := Job) W self kwargs) h
          = if ok r
            then match json r with
                 | Some v => inr v
                 | None => inl Py.ValueError
                 end
            else inl Py.HTTPError
      end.
Proof.
  intros Hd. unfold BaseQuery.post, BaseQuery.http_post, Seq.bind,
    Seq.dict_read, Seq.emit, Seq.ret, Seq.raise. rewrite Hd. simpl.
  unfold BaseQuery.outcome. rewrite get_run, Hd. simpl.
  destruct (requests_post W (BaseQuery.base_url self) d data) as [r|];
    simpl.
  - unfold BaseQuery.checked_json.
    exists (inr (if ok r then default Py.None_ (json r) else Py.None_)).
    split; [|split].
    + destruct (ok r); [destruct (json r)|]; reflexivity.
    + done.
    + destruct (requests_get W _ _) as [r'|]; [|done].
      destruct (ok r'); [destruct (json r')|]; done.
  - eexists. split; [reflexivity|]. split; [done|].
    destruct (requests_get W _ _) as [r'|]; [|done].
    unfold BaseQuery.checked_json.
    destruct (ok r'); [destruct (json r')|]; done.
Qed.

Lemma post_returns_none_where_get_raises_witness :
  ∃ res,
    BaseQuery.post (Job := unit) Example.service (Example.self Series.cls)
                   {[ "series_id" := Py.Str "GONE" ]} Example.heap
    = (Example.heap,
       [Post (BaseQuery.base_url (Example.self Series.cls))
             {[ "api_key" := Py.Str "KEY"; "out" := Py.Str "json" ]}
             {[ "series_id" := Py.Str "GONE" ]}], res)
    ∧ match requests_post Example.service
                          (BaseQuery.base_url (Example.self Series.cls))
                          {[ "api_key" := Py.Str "KEY"; "out" := Py.Str "json" ]}
                          {[ "series_id" := Py.Str "GONE" ]} with
      | None => res = inl Py.ConnectionError
      | Some r =>
          res = inr (if ok r then default Py.None_ (json r) else Py.None_)
      end
    ∧ match requests_get Example.service
                         (BaseQuery.base_url (Example.self Series.cls))
                         (∅ ∪ {[ "api_key" := Py.Str "KEY";
                                 "out" := Py.Str "json" ]}) with
      | None =>
          BaseQuery.outcome
            (BaseQuery.get (Job := unit) Example.service
                           (Example.self Series.cls) ∅) Example.heap
          = inl Py.ConnectionError
      | Some r =>
          BaseQuery.outcome
            (BaseQuery.get (Job := unit) Example.service
                           (Example.self Series.cls) ∅) Example.heap
          = if ok r
            then match json r with
                 | Some v => inr v
                 | None => inl Py.ValueError
                 end
            else inl Py.HTTPError
      end.
Proof.
  apply (post_returns_none_where_get_raises (Job := unit) Example.service
           (Example.self Series.cls)).
  reflexivity.
Defined.

(** ** [Updates.query]: the other paths *)







(** X14. When the probe of [Updates.query] raises, the method raises the
    same exception, having sent that one request and put no job. *)
Theorem updates_probe_failure (W : world) (self : BaseQuery.instance)
        (p : Engine.pool (gmap string Py.val) Py.val)
        (category_id deep : Py.val) (rows firstrow : Z)
        (h : gmap nat (gmap string Py.val)) (e : Py.exn) :
  BaseQuery.outcome
    (BaseQuery.get (Job := gmap string Py.val) W self
       {[ "category_id" := category_id; "deep" := deep;
          "rows" := Py.Int 1; "firstrow" := Py.Int 0 ]}) h = inl e →
  ∃ h' sent,
    Updates.plan W self category_id rows firstrow deep h
    = (h', [Get (BaseQuery.base_url self) sent], inl e)
    ∧ Engine.caller_step Updates.reduce
        (Updates.query W self p category_id rows firstrow deep h)
      = {| Engine.main := Engine.Raised e; Engine.self_pool := p |}.
Proof.
  intros Hpoll. unfold BaseQuery.outcome in Hpoll. rewrite get_run in Hpoll.
  simpl in Hpoll.
  assert (Hplan : ∃ h' sent,
    Updates.plan W self category_id rows firstrow deep h
    = (h', [Get (BaseQuery.base_url self) sent], inl e)).
  { unfold Updates.plan, Seq.bind. rewrite get_run, Hpoll. by eexists _, _. }
  destruct Hplan as (h' & sent & Hplan). exists h', sent.
  split; [done|]. unfold Updates.query. by rewrite Hplan.
Qed.

Lemma updates_probe_failure_witness :
  ∃ h' sent,
    Updates.plan Sample.offline (Example.self Updates.cls)
                 Py.None_ 50 0 (Py.Bool false) Example.heap
    = (h', [Get (BaseQuery.base_url (Example.self Updates.cls)) sent],
       inl Py.ConnectionError)
    ∧ Engine.caller_step Updates.reduce
        (Updates.query Sample.offline (Example.self Updates.cls)
                       (Example.pool 4) Py.None_ 50 0 (Py.Bool false)
                       Example.heap)
      = {| Engine.main := Engine.Raised Py.ConnectionError;
           Engine.self_pool := Example.pool 4 |}.
Proof.
  apply (updates_probe_failure Sample.offline (Example.self Updates.cls)
           (Example.pool 4) Py.None_ (Py.Bool false) 50 0 Example.heap
           Py.ConnectionError).
  vm_compute. reflexivity.
Defined.

(** ** [Search.query]: the other paths *)

(** X15. A [Search.query] that does not fetch all ([rows_per_page] neither
    0 nor ['all']) uses no job and no consumer: it sends one request with
    the caller's [page_num] and [rows_per_page] and returns the [docs] of
    the response. *)
Theorem search_limited_query (W : world) (self : BaseQuery.instance)
        (p : Engine.pool (gmap string Py.val) Py.val)
        (search_term search_value rows_per_page page_num t v r docs : Py.val)
        (h : gmap nat (gmap string Py.val)) :
  Py.eq_int rows_per_page 0 || Py.eq_str rows_per_page "all" = false →
  Search.clean_search_params W search_term search_value = inr (t, v) →
  BaseQuery.outcome
    (BaseQuery.get (Job := gmap string Py.val) W self
       {[ "search_term" := t; "search_value" := v;
          "page_num" := page_num; "rows_per_page" := rows_per_page ]}) h
  = inr r →
  Py.bind (Py.getitem r "response") (λ resp, Py.getitem resp "docs")
  = inr docs →
  ∃ h' sent,
    Search.plan W self search_term search_value rows_per_page page_num h
    = (h', [Get (BaseQuery.base_url self) sent], inr (Engine.Direct docs))
    ∧ sent !! "page_num" = Some page_num
    ∧ sent !! "rows_per_page" = Some rows_per_page
    ∧ sent !! "search_term" = Some t
    ∧ sent !! "search_value" = Some v
    ∧ Engine.caller_step Search.reduce
        (Search.query W self p search_term search_value rows_per_page
                      page_num h)
      = {| Engine.main := Engine.Returned docs; Engine.self_pool := p |}.
Proof.
  intros Hall Hclean Hget Hdocs.
  unfold BaseQuery.outcome in Hget. rewrite get_run in Hget. simpl in Hget.
  assert (Hplan : ∃ h',
    Search.plan W self search_term search_value rows_per_page page_num h
    = (h', [Get (BaseQuery.base_url self)
                ({[ "search_term" := t; "search_value" := v;
                    "page_num" := page_num;
                    "rows_per_page" := rows_per_page ]}
                 ∪ default ∅ (h !! BaseQuery.default_params self))],
       inr (Engine.Direct docs))).
  { unfold Search.plan, Seq.bind, Seq.lift.
    rewrite Hclean. cbv zeta. cbn [fst snd]. rewrite Hall.
    rewrite get_run, Hget, Hdocs. by eexists. }
  destruct Hplan as (h' & Hplan). eexists h', _.
  split; [exact Hplan|].
  do 4 (split; [by simplify_map_eq|]).
  unfold Search.query. by rewrite Hplan.
Qed.

Lemma search_limited_query_witness :
  ∃ h' sent,
    Search.plan Example.service (Example.self Search.cls)
                (Py.Str "name") (Py.Str "crude oil") (Py.Int 10) (Py.Int 3)
                Example.heap
    = (h', [Get (BaseQuery.base_url (Example.self Search.cls)) sent],
       inr (Engine.Direct (Py.List [Py.Str "doc"])))
    ∧ sent !! "page_num" = Some (Py.Int 3)
    ∧ sent !! "rows_per_page" = Some (Py.Int 10)
    ∧ sent !! "search_term" = Some (Py.Str "name")
    ∧ sent !! "search_value" = Some (Py.Str (Search.quoted "crude oil"))
    ∧ Engine.caller_step Search.reduce
        (Search.query Example.service (Example.self Search.cls)
                      (Example.pool 4) (Py.Str "name") (Py.Str "crude oil")
                      (Py.Int 10) (Py.Int 3) Example.heap)
      = {| Engine.main := Engine.Returned (Py.List [Py.Str "doc"]);
           Engine.self_pool := Example.pool 4 |}.
Proof.
  apply (search_limited_query Example.service (Example.self Search.cls)
           (Example.pool 4) (Py.Str "name") (Py.Str "crude oil") (Py.Int 10)
           (Py.Int 3) (Py.Str "name") (Py.Str (Search.quoted "crude oil"))
           Example.document).
  - reflexivity.
  - vm_compute. reflexivity.
  - vm_compute. reflexivity.
  - reflexivity.
Defined.

(** The caller of a batch of no job that collects no result, after [k] of
    its operations on an idle pool. *)
Lemma zero_batch_run {Job Result Out} (parse : Job → Py.result Result)
      (reduce : list Result → Py.result Out) (v : Out) (c : nat)
      (sched : list thread) (k : nat) :
  reduce [] = inr v →
  let at_ (k : nat) : Engine.caller Job Result Out :=
    match k with
    | O => Engine.Putting [] (Engine.Joining (inr 0))
    | 1%nat => Engine.Joining (inr 0)
    | 2%nat => Engine.Collecting O []
    | 3%nat => Engine.Reducing []
    | _ => Engine.Returned v
    end in
  Engine.run parse reduce sched
    {| Engine.main := at_ k; Engine.self_pool := Example.pool c |}
  = {| Engine.main := at_ (k + caller_steps sched)%nat;
       Engine.self_pool := Example.pool c |}.
Proof.
  intros Hred at_. revert k.
  induction sched as [|t sched IH]; intros k.
  - simpl. by rewrite Nat.add_0_r.
  - rewrite run_cons. destruct t as [|n]; unfold Engine.step.
    + simpl caller_steps.
      replace (k + S (caller_steps sched))%nat
        with (S k + caller_steps sched)%nat by lia.
      rewrite <- IH. f_equal.
      destruct k as [|[|[|[|k]]]]; try reflexivity.
      unfold Engine.caller_step. simpl. by rewrite Hred.
    + rewrite idle_consumer_step. apply IH.
Qed.

(** X16. A fetch-all [Search.query] whose probe finds no match puts no
    job and, unlike the id queries, does not fail on the empty batch: it
    never raises, it never blocks, and with its fourth operation it has
    returned the empty list. *)
Theorem search_fetch_all_no_match (W : world) (self : BaseQuery.instance)
        (c : nat)
        (search_term search_value rows_per_page page_num t v r : Py.val)
        (h0 h : gmap nat (gmap string Py.val)) (sched : list thread) :
  Py.eq_int rows_per_page 0 || Py.eq_str rows_per_page "all" = true →
  Search.clean_search_params W search_term search_value = inr (t, v) →
  BaseQuery.outcome
    (BaseQuery.get (Job := gmap string Py.val) W self
       {[ "search_term" := t; "search_value" := v;
          "page_num" := Py.Int 1; "rows_per_page" := Py.Int 1 ]}) h0 = inr r →
  Py.bind (Py.getitem r "response")
          (λ resp, Py.bind (Py.getitem resp "numFound") Py.as_int)
  = inr 0 →
  let s := Search.run W self h sched
             (Search.query W self (Example.pool c) search_term search_value
                           rows_per_page page_num h0) in
  (∀ e, Engine.main s ≠ Engine.Raised e)
  ∧ ((4 ≤ caller_steps sched)%nat →
     Engine.main s = Engine.Returned (Py.List []))
  ∧ Engine.self_pool s = Example.pool c.
Proof.
  intros Hall Hclean Hprobe Htotal s. subst s.
  assert (Hquery :
    Search.query W self (Example.pool c) search_term search_value
                 rows_per_page page_num h0
    = {| Engine.main := Engine.Putting [] (Engine.Joining (inr 0));
         Engine.self_pool := Example.pool c |}).
  { unfold BaseQuery.outcome in Hprobe. rewrite get_run in Hprobe.
    simpl in Hprobe.
    unfold Search.query, Search.plan, Seq.bind, Seq.lift.
    rewrite Hclean. cbv zeta. cbn [fst snd]. rewrite Hall.
    rewrite get_run, Hprobe, Htotal. reflexivity. }
  rewrite Hquery. unfold Search.run.
  rewrite (zero_batch_run _ Search.reduce (Py.List []) c sched 0 eq_refl).
  simpl. split; [|split; [|done]].
  - intros e. by destruct (caller_steps sched) as [|[|[|[|k]]]].
  - intros Hk.
    destruct (caller_steps sched) as [|[|[|[|k]]]]; [lia|lia|lia|lia|done].
Qed.

Lemma search_fetch_all_no_match_witness :
  let s := Search.run Sample.no_match (Example.self Search.cls) Example.heap
             [Caller; Consumer 1; Caller; Caller; Caller]
             (Search.query Sample.no_match (Example.self Search.cls)
                           (Example.pool 4) (Py.Str "name") (Py.Str "zzz")
                           (Py.Int 0) (Py.Int 1) Example.heap) in
  (∀ e, Engine.main s ≠ Engine.Raised e)
  ∧ ((4 ≤ caller_steps [Caller; Consumer 1; Caller; Caller; Caller])%nat →
     Engine.main s = Engine.Returned (Py.List []))
  ∧ Engine.self_pool s = Example.pool 4.
Proof.
  apply (search_fetch_all_no_match Sample.no_match (Example.self Search.cls) 4
           (Py.Str "name") (Py.Str "zzz") (Py.Int 0) (Py.Int 1)
           (Py.Str "name") (Py.Str (Search.quoted "zzz"))
           (Py.Dict [("response", Py.Dict [("numFound", Py.Int 0);
                                           ("docs", Py.List [])])])
           Example.heap Example.heap).
  - reflexivity.
  - vm_compute. reflexivity.
  - vm_compute. reflexivity.
  - reflexivity.
Defined.

(** X17. When the first request of [Search.query] raises (the probe of
    the fetch-all path, the only request otherwise), or its response has
    no [response] member to read, the method raises that exception,
    having put no job. *)
Theorem search_request_failure (W : world) (self : BaseQuery.instance)
        (p : Engine.pool (gmap string Py.val) Py.val)
        (search_term search_value rows_per_page page_num t v : Py.val)
        (h : gmap nat (gmap string Py.val)) (e : Py.exn) :
  Search.clean_search_params W search_term search_value = inr (t, v) →
  let fetch_all :=
    Py.eq_int rows_per_page 0 || Py.eq_str rows_per_page "all" in
  let kwargs : gmap string Py.val :=
    if fetch_all
    then {[ "search_term" := t; "search_value" := v;
            "page_num" := Py.Int 1; "rows_per_page" := Py.Int 1 ]}
    else {[ "search_term" := t; "search_value" := v;
            "page_num" := page_num; "rows_per_page" := rows_per_page ]} in
  Py.bind (BaseQuery.outcome
             (BaseQuery.get (Job := gmap string Py.val) W self kwargs) h)
          (λ r, Py.getitem r "response") = inl e →
  ∃ h' sent,
    Search.plan W self search_term search_value rows_per_page page_num h
    = (h', [Get (BaseQuery.base_url self) sent], inl e)
    ∧ Engine.caller_step Search.reduce
        (Search.query W self p search_term search_value rows_per_page
                      page_num h)
      = {| Engine.main := Engine.Raised e; Engine.self_pool := p |}.
Proof.
  intros Hclean fetch_all kwargs Hfail.
  assert (Hplan : ∃ h' sent,
    Search.plan W self search_term search_value rows_per_page page_num h
    = (h', [Get (BaseQuery.base_url self) sent], inl e)).
  { unfold BaseQuery.outcome in Hfail. rewrite get_run in Hfail.
    simpl in Hfail.
    unfold Search.plan, Seq.bind, Seq.lift.
    rewrite Hclean. cbv zeta. cbn [fst snd].
    subst kwargs. fold fetch_all. destruct fetch_all.
    - rewrite get_run.
      destruct (match requests_get W _ _ with
                | Some r => BaseQuery.checked_json r
                | None => inl Py.ConnectionError
                end) as [e'|r]; simpl in Hfail.
      + injection Hfail as ->. by eexists _, _.
      + unfold Py.bind at 1. rewrite Hfail. by eexists _, _.
    - rewrite get_run.
      destruct (match requests_get W _ _ with
                | Some r => BaseQuery.checked_json r
                | None => inl Py.ConnectionError
                end) as [e'|r]; simpl in Hfail.
      + injection Hfail as ->. by eexists _, _.
      + unfold Py.bind at 1. rewrite Hfail. by eexists _, _. }
  destruct Hplan as (h' & sent & Hplan). exists h', sent.
  split; [done|]. unfold Search.query. by rewrite Hplan.
Qed.

Lemma search_request_failure_witness :
  ∃ h' sent,
    Search.plan Sample.offline (Example.self Search.cls)
                (Py.Str "name") (Py.Str "oil") (Py.Str "all") (Py.Int 1)
                Example.heap
    = (h', [Get (BaseQuery.base_url (Example.self Search.cls)) sent],
       inl Py.ConnectionError)
    ∧ Engine.caller_step Search.reduce
        (Search.query Sample.offline (Example.self Search.cls)
                      (Example.pool 4) (Py.Str "name") (Py.Str "oil")
                      (Py.Str "all") (Py.Int 1) Example.heap)
      = {| Engine.main := Engine.Raised Py.ConnectionError;
           Engine.self_pool := Example.pool 4 |}.
Proof.
  apply (search_request_failure Sample.offline (Example.self Search.cls)
           (Example.pool 4) (Py.Str "name") (Py.Str "oil") (Py.Str "all")
           (Py.Int 1) (Py.Str "name") (Py.Str (Search.quoted "oil"))).
  - vm_compute. reflexivity.
  - vm_compute. reflexivity.
Defined.

(** ** [clean_search_params]: what becomes of the value *)

Lemma prefix_append (p s : string) :
  String.prefix p s = true → ∃ r, s = String.append p r.
Proof.
  revert s. induction p as [|a p IH]; intros s Hp.
  - by exists s.
  - destruct s as [|b s]; simpl in Hp; [done|].
    destruct (Ascii.ascii_dec a b) as [->|]; [|done].
    destruct (IH s Hp) as [r ->]. by exists r.
Qed.

Lemma append_cons (c : Ascii.ascii) (a b : string) :
  String.append (String c a) b = String c (String.append a b).
Proof. reflexivity. Qed.

Lemma append_empty (b : string) : String.append EmptyString b = b.
Proof. reflexivity. Qed.

Lemma rstrip_append (q : Ascii.ascii) (s : string) :
  ∃ tail, s = String.append (Search.rstrip q s) tail
          ∧ ∀ n c, String.get n tail = Some c → c = q.
Proof.
  induction s as [|c s (tail & Hs & Htail)]; simpl.
  - exists EmptyString. split; [done|]. intros n ch. by destruct n.
  - destruct (Search.rstrip q s) as [|a t] eqn:Hr.
    + rewrite append_empty in Hs. destruct (Ascii.eqb c q) eqn:Hc.
      * apply Ascii.eqb_eq in Hc as ->.
        exists (String q s). split; [done|].
        intros [|n] ch Hget; simpl in Hget; [by injection Hget|].
        rewrite Hs in Hget. by eapply Htail.
      * exists tail. split; [|done].
        by rewrite append_cons, append_empty, Hs.
    + exists tail. split; [|done]. by rewrite append_cons, <- Hs.
Qed.

Lemma append_assoc (a b c : string) :
  String.append (String.append a b) c = String.append a (String.append b c).
Proof.
  induction a as [|x a IH]; [done|]. by rewrite !append_cons, IH.
Qed.

Lemma get_append_r (a b : string) (n : nat) :
  String.get (String.length a + n) (String.append a b) = String.get n b.
Proof.
  induction a as [|x a IH]; [done|]. rewrite append_cons. exact IH.
Qed.

(** The test of [clean_search_params] never succeeds: [re.escape] makes
    the anchors of the pattern literal characters, and no string starts
    with a caret, a quote, itself without its outer quotes, a quote and a
    dollar sign. *)
Lemma quoted_test_never_matches (s : string) :
  Search.match_escaped
    (String.append "^"
       (String.append
          (Search.quoted (Search.strip (Ascii.ascii_of_nat 34) s)) "$")) s
  = false.
Proof.
  set (q := Ascii.ascii_of_nat 34).
  destruct (Search.match_escaped _ s) eqn:Hm; [exfalso|done].
  unfold Search.match_escaped in Hm.
  apply prefix_append in Hm as [r Hs].
  unfold Search.quoted, Search.dquote in Hs. fold q in Hs. simpl in Hs.
  assert (Hstrip : Search.strip q s = Search.rstrip q s).
  { unfold Search.strip. f_equal. rewrite Hs. reflexivity. }
  rewrite Hstrip in Hs.
  destruct (rstrip_append q s) as (tail & Htail & Hq).
  set (R := Search.rstrip q s) in *.
  assert (Hget : String.get (String.length R + 3) s = Some (Ascii.ascii_of_nat 36)).
  { rewrite Hs. replace (String.length R + 3)%nat
      with (S (S (String.length R + 1))) by lia.
    simpl. rewrite append_empty, !append_assoc, get_append_r. reflexivity. }
  rewrite Htail, get_append_r in Hget.
  apply Hq in Hget. subst q. vm_compute in Hget. discriminate Hget.
Qed.

(** X18. For the search terms ['series_id'] and ['name'],
    [clean_search_params] puts the value between double quotes whatever
    it is, also when it is quoted already: the test meant to recognise a
    quoted value never succeeds. A value that is not a string raises
    [AttributeError]. *)
Theorem clean_search_params_always_quotes (W : world) (t : string)
        (search_value : Py.val) :
  t = "series_id" ∨ t = "name" →
  Search.clean_search_params W (Py.Str t) search_value
  = match search_value with
    | Py.Str s => inr (Py.Str t, Py.Str (Search.quoted s))
    | _ => inl Py.AttributeError
    end.
Proof.
  intros Ht. unfold Search.clean_search_params.
  assert (H1 : Search.term_in (Py.Str t) Search.valid_terms = true)
    by (destruct Ht as [-> | ->]; reflexivity).
  assert (H2 : Search.term_in (Py.Str t) ["series_id"; "name"] = true)
    by (destruct Ht as [-> | ->]; reflexivity).
  rewrite H1, H2. simpl.
  destruct search_value; try done.
  by rewrite quoted_test_never_matches.
Qed.

Lemma clean_search_params_always_quotes_witness :
  Search.clean_search_params Example.service (Py.Str "name")
                             (Py.Str (Search.quoted "crude oil"))
  = inr (Py.Str "name",
         Py.Str (Search.quoted (Search.quoted "crude oil"))).
Proof.
  apply (clean_search_params_always_quotes Example.service "name"
           (Py.Str (Search.quoted "crude oil"))).
  by right.
Defined.

(** X19. For the search term ['last_updated'], [clean_search_params]
    turns a value of exactly two items into the range
    ['[first TO second]'] of their formatted dates, leaves a value with
    any other number of items (a ready-made range string, say) as it is,
    and raises [TypeError] for a value that has no items to count. *)
Theorem clean_search_params_last_updated (W : world) :
  (∀ a b da db sa sb,
     to_datetime W a = inr da → to_datetime W b = inr db →
     strftime W da "%Y-%m-%dT%H:%M:%SZ" = inr sa →
     strftime W db "%Y-%m-%dT%H:%M:%SZ" = inr sb →
     Search.clean_search_params W (Py.Str "last_updated") (Py.List [a; b])
     = inr (Py.Str "last_updated",
            Py.Str (String.append "["
                      (String.append sa
                         (String.append " TO " (String.append sb "]"))))))
  ∧ (∀ v items,
       Py.iter v = inr items → length items ≠ 2%nat →
       Search.clean_search_params W (Py.Str "last_updated") v
       = inr (Py.Str "last_updated", v))
  ∧ (∀ v e,
       Py.iter v = inl e →
       Search.clean_search_params W (Py.Str "last_updated") v = inl e).
Proof.
  split; [|split].
  - intros a b da db sa sb Ha Hb Hsa Hsb.
    unfold Search.clean_search_params. simpl.
    rewrite Ha, Hb. simpl. rewrite Hsa, Hsb. simpl.
    unfold Py.ret. do 3 f_equal.
    by rewrite !append_cons, !append_empty, !append_assoc.
  - intros v items Hiter Hlen.
    unfold Search.clean_search_params. simpl. rewrite Hiter. simpl.
    destruct (length items =? 2)%nat eqn:E; [|done].
    apply Nat.eqb_eq in E. done.
  - intros v e Hiter.
    unfold Search.clean_search_params. simpl. by rewrite Hiter.
Qed.

(** ** [Geoset.query] and [Category.query] *)

(** X20. [Geoset.query] and [Category.query] make one request each and
    use no pool: [Geoset.query] sends the geoset id and the regions
    joined by commas and returns the [geoset] member of the answer;
    [Category.query] sends the category id and returns the [category]
    member. Either raises [KeyError] when the member is missing, and
    [Geoset.query] raises [TypeError] without sending anything when the
    caller passes [regions] by keyword. *)
Theorem geoset_and_category_query (W : world) (self : BaseQuery.instance)
        (d kwargs : gmap string Py.val) (h : gmap nat (gmap string Py.val))
        (geoset_id : string) (regions : list string) (category_id : Py.val) :
  h !! BaseQuery.default_params self = Some d →
  (kwargs !! "geoset_id" = None → kwargs !! "regions" = None →
   ∃ h' sent,
     Geoset.query W self geoset_id regions kwargs h
     = (h', [Get (BaseQuery.base_url self) sent],
        Py.bind match requests_get W (BaseQuery.base_url self) sent with
                | Some r => BaseQuery.checked_json r
                | None => inl Py.ConnectionError
                end
                (λ data, Py.getitem data "geoset"))
     ∧ sent !! "geoset_id" = Some (Py.Str geoset_id)
     ∧ sent !! "regions" = Some (Py.Str (Py.join "," regions))
     ∧ (∀ key, key ≠ "geoset_id" → key ≠ "regions" →
               sent !! key = (kwargs ∪ d) !! key))
  ∧ (is_Some (kwargs !! "regions") →
     Geoset.query W self geoset_id regions kwargs h = (h, [], inl Py.TypeError))
  ∧ (kwargs !! "category_id" = None →
     ∃ h' sent,
       Category.query W self category_id kwargs h
       = (h', [Get (BaseQuery.base_url self) sent],
          Py.bind match requests_get W (BaseQuery.base_url self) sent with
                  | Some r => BaseQuery.checked_json r
                  | None => inl Py.ConnectionError
                  end
                  (λ data, Py.getitem data "category"))
       ∧ sent !! "category_id" = Some category_id
       ∧ (∀ key, key ≠ "category_id" → sent !! key = (kwargs ∪ d) !! key)).
Proof.
  intros Hd. split; [|split].
  - intros Hg Hr. unfold Geoset.query. rewrite Hg, Hr.
    unfold Seq.bind, Seq.lift.
    rewrite get_run, Hd. cbn [default].
    set (kw := <[ "geoset_id" := Py.Str geoset_id ]>
                 (<[ "regions" := Py.Str (Py.join "," regions) ]> kwargs)).
    exists (<[fresh (dom h) := kw ∪ d]> h), (kw ∪ d).
    split.
    { destruct (match requests_get W _ _ with
                | Some r => BaseQuery.checked_json r
                | None => inl Py.ConnectionError
                end); reflexivity. }
    subst kw. split; [|split].
    + rewrite lookup_union, lookup_insert_eq. by destruct (d !! _).
    + rewrite lookup_union, lookup_insert_ne, lookup_insert_eq by done.
      by destruct (d !! _).
    + intros key H1 H2.
      rewrite !lookup_union, !lookup_insert_ne by done. done.
  - intros [x Hx]. unfold Geoset.query. rewrite Hx.
    by destruct (kwargs !! "geoset_id").
  - intros Hc. unfold Category.query. rewrite Hc.
    unfold Seq.bind, Seq.lift.
    rewrite get_run, Hd. cbn [default].
    set (kw := <[ "category_id" := category_id ]> kwargs).
    exists (<[fresh (dom h) := kw ∪ d]> h), (kw ∪ d).
    split.
    { destruct (match requests_get W _ _ with
                | Some r => BaseQuery.checked_json r
                | None => inl Py.ConnectionError
                end); reflexivity. }
    subst kw. split.
    + rewrite lookup_union, lookup_insert_eq. by destruct (d !! _).
    + intros key H1. rewrite !lookup_union, !lookup_insert_ne by done. done.
Qed.

Lemma geoset_and_category_query_witness :
  let W := Sample.service in
  let self := Example.self Geoset.cls in
  let d : gmap string Py.val :=
    {[ "api_key" := Py.Str "KEY"; "out" := Py.Str "json" ]} in
  let kwargs : gmap string Py.val := ∅ in
  (kwargs !! "geoset_id" = None → kwargs !! "regions" = None →
   ∃ h' sent,
     Geoset.query W self "ELEC.GEN.ALL-99.A" ["USA-CA"; "USA-FL"] kwargs
                  Example.heap
     = (h', [Get (BaseQuery.base_url self) sent],
        Py.bind match requests_get W (BaseQuery.base_url self) sent with
                | Some r => BaseQuery.checked_json r
                | None => inl Py.ConnectionError
                end
                (λ data, Py.getitem data "geoset"))
     ∧ sent !! "geoset_id" = Some (Py.Str "ELEC.GEN.ALL-99.A")
     ∧ sent !! "regions" = Some (Py.Str (Py.join "," ["USA-CA"; "USA-FL"]))
     ∧ (∀ key, key ≠ "geoset_id" → key ≠ "regions" →
               sent !! key = (kwargs ∪ d) !! key))
  ∧ (is_Some (kwargs !! "regions") →
     Geoset.query W self "ELEC.GEN.ALL-99.A" ["USA-CA"; "USA-FL"] kwargs
                  Example.heap
     = (Example.heap, [], inl Py.TypeError))
  ∧ (kwargs !! "category_id" = None →
     ∃ h' sent,
       Category.query W self (Py.Int 371) kwargs Example.heap
       = (h', [Get (BaseQuery.base_url self) sent],
          Py.bind match requests_get W (BaseQuery.base_url self) sent with
                  | Some r => BaseQuery.checked_json r
                  | None => inl Py.ConnectionError
                  end
                  (λ data, Py.getitem data "category"))
       ∧ sent !! "category_id" = Some (Py.Int 371)
       ∧ (∀ key, key ≠ "category_id" → sent !! key = (kwargs ∪ d) !! key)).
Proof.
  intros W self d kwargs.
  apply (geoset_and_category_query W self d kwargs Example.heap).
  reflexivity.
Defined.

(** ** Page batches whose requests are all answered *)

Section AnsweredPages.
Context {Job : Type}.
Variable parse : Job → Py.result Py.val.
Variable reduce : list Py.val → Py.result Py.val.
Variable f : Job → Py.val.
Variable g : Job → list Py.val.
Variable jobs : list Job.
Variable c : nat.

Hypothesis answered : ∀ job, job ∈ jobs → parse job = inr (f job).
Hypothesis reduced :
  ∀ order, order ≡ₚ jobs →
           reduce (map f order) = inr (Py.List (concat (map g order))).

Lemma pages_returned sched v :
  Engine.main (Engine.run parse reduce sched (batch c jobs))
  = Engine.Returned v →
  ∃ order, order ≡ₚ jobs ∧ v = Py.List (concat (map g order)).
Proof.
  intros Hmain.
  destruct (invariant_run parse reduce jobs sched _
              (invariant_batch parse reduce jobs c))
    as (collected & Hm & _ & Hledger).
  rewrite Hmain in Hm. simpl in Hm. destruct Hm as [Hlen Hred].
  pose proof (collected_is_permutation parse f jobs _ collected
                answered Hlen Hledger) as Hperm.
  apply Permutation_map_inv in Hperm as (order & -> & Horder).
  exists order. split; [done|].
  rewrite reduced in Hred by done. by injection Hred.
Qed.

Lemma pages_never_raise sched e :
  Engine.main (Engine.run parse reduce sched (batch c jobs))
  ≠ Engine.Raised e.
Proof.
  intros Hmain.
  destruct (invariant_run parse reduce jobs sched _
              (invariant_batch parse reduce jobs c))
    as (collected & Hm & _ & Hledger).
  rewrite Hmain in Hm. simpl in Hm. destruct Hm as [Hlen Hred].
  pose proof (collected_is_permutation parse f jobs _ collected
                answered Hlen Hledger) as Hperm.
  apply Permutation_map_inv in Hperm as (order & -> & Horder).
  by rewrite reduced in Hred.
Qed.

Lemma pages_one_by_one :
  (0 < c)%nat →
  Engine.main (Engine.run parse reduce (one_by_one (length jobs) ++ [Caller])
                          (batch c jobs))
  = Engine.Returned (Py.List (concat (map g jobs))).
Proof.
  intros Hc. destruct c as [|c']; [lia|].
  rewrite run_app, (run_one_by_one parse reduce f jobs c' answered).
  rewrite run_cons. simpl. unfold Engine.caller_step. simpl.
  by rewrite reduced.
Qed.

End AnsweredPages.

Lemma query_is_batch {Job Out} (q : Engine.system Job Py.val Out)
      (c : nat) (jobs : list Job) :
  Engine.main q
  = Engine.Putting jobs (Engine.Joining (inr (Z.of_nat (length jobs)))) →
  Engine.self_pool q = Example.pool c →
  q = batch c jobs.
Proof. destruct q as [m p]. simpl. by intros -> ->. Qed.

(** X21. When an [Updates.query] has worked out its page jobs (its probe
    was answered and there is a page to fetch) and every page job is
    answered with a payload whose [updates] member is a list, the query
    never raises; what it returns is the concatenation of those lists
    page by page in some order of the pages, and in page order when one
    consumer serves the pages one after another. *)
Theorem updates_query_returns_all_updates (W : world)
        (self : BaseQuery.instance) (h0 h : gmap nat (gmap string Py.val))
        (c : nat) (category_id deep : Py.val) (rows firstrow : Z)
        (jobs : list (gmap string Py.val))
        (f : gmap string Py.val → Py.val)
        (g : gmap string Py.val → list Py.val) :
  let query := Updates.query W self (Example.pool c)
                             category_id rows firstrow deep h0 in
  Engine.main query
  = Engine.Putting jobs (Engine.Joining (inr (Z.of_nat (length jobs)))) →
  (∀ job, job ∈ jobs →
          BaseQuery.outcome (Updates.parse W self job) h = inr (f job)
          ∧ Py.getitem (f job) "updates" = inr (Py.List (g job))) →
  (∀ sched v,
     Engine.main (Updates.run W self h sched query) = Engine.Returned v →
     ∃ order, order ≡ₚ jobs ∧ v = Py.List (concat (map g order)))
  ∧ (∀ sched e,
       Engine.main (Updates.run W self h sched query) ≠ Engine.Raised e)
  ∧ ((0 < c)%nat →
     Engine.main (Updates.run W self h (one_by_one (length jobs) ++ [Caller])
                              query)
     = Engine.Returned (Py.List (concat (map g jobs)))).
Proof.
  intros query Hmain Hall.
  assert (Hq : query = batch c jobs).
  { apply query_is_batch; [done|].
    subst query. unfold Updates.query.
    by destruct (Updates.plan _ _ _ _ _ _ _) as [[? ?] ?]. }
  rewrite Hq. unfold Updates.run.
  assert (Hparse : ∀ job, job ∈ jobs →
            BaseQuery.outcome (Updates.parse W self job) h = inr (f job))
    by (intros job Hjob; by apply Hall).
  assert (Hred : ∀ order, order ≡ₚ jobs →
            Updates.reduce (map f order)
            = inr (Py.List (concat (map g order)))).
  { intros order Hperm. unfold Updates.reduce.
    rewrite (flatten_key_lists "updates" (map f order) (map g order));
      [done|].
    assert (Hin : ∀ job, job ∈ order → job ∈ jobs)
      by (intros job Hjob; by rewrite <- Hperm).
    clear Hperm. induction order as [|j order IH]; simpl; constructor.
    - apply Hall, Hin. by left.
    - apply IH. intros job Hjob. apply Hin. by right. }
  split; [|split].
  - intros sched v. by apply (pages_returned _ _ f g jobs c Hparse Hred).
  - intros sched e. by apply (pages_never_raise _ _ f g jobs c Hparse Hred).
  - by apply (pages_one_by_one _ _ f g jobs c Hparse Hred).
Qed.

(** X22. When a fetch-all [Search.query] has worked out its page jobs
    (its probe was answered) and every page job is answered with a
    response whose [docs] are a list, the query never raises; what it
    returns is the concatenation of those lists page by page in some
    order of the pages, and in page order when one consumer serves the
    pages one after another. *)
Theorem search_query_returns_all_docs (W : world)
        (self : BaseQuery.instance) (h0 h : gmap nat (gmap string Py.val))
        (c : nat) (search_term search_value rows_per_page page_num : Py.val)
        (jobs : list (gmap string Py.val))
        (g : gmap string Py.val → list Py.val) :
  let query := Search.query W self (Example.pool c) search_term search_value
                            rows_per_page page_num h0 in
  Engine.main query
  = Engine.Putting jobs (Engine.Joining (inr (Z.of_nat (length jobs)))) →
  (∀ job, job ∈ jobs →
          BaseQuery.outcome (Search.parse W self job) h
          = inr (Py.List (g job))) →
  (∀ sched v,
     Engine.main (Search.run W self h sched query) = Engine.Returned v →
     ∃ order, order ≡ₚ jobs ∧ v = Py.List (concat (map g order)))
  ∧ (∀ sched e,
       Engine.main (Search.run W self h sched query) ≠ Engine.Raised e)
  ∧ ((0 < c)%nat →
     Engine.main (Search.run W self h (one_by_one (length jobs) ++ [Caller])
                             query)
     = Engine.Returned (Py.List (concat (map g jobs)))).
Proof.
  intros query Hmain Hall.
  assert (Hq : query = batch c jobs).
  { apply query_is_batch; [done|].
    subst query. unfold Search.query.
    by destruct (Search.plan _ _ _ _ _ _ _) as [[? ?] ?]. }
  rewrite Hq. unfold Search.run.
  assert (Hred : ∀ order, order ≡ₚ jobs →
            Search.reduce (map (λ job, Py.List (g job)) order)
            = inr (Py.List (concat (map g order)))).
  { intros order _. unfold Search.reduce.
    rewrite <- (map_map g Py.List), flatten_lists. done. }
  split; [|split].
  - intros sched v.
    by apply (pages_returned _ _ (λ job, Py.List (g job)) g jobs c Hall Hred).
  - intros sched e.
    by apply (pages_never_raise _ _ (λ job, Py.List (g job)) g jobs c Hall Hred).
  - by apply (pages_one_by_one _ _ (λ job, Py.List (g job)) g jobs c Hall Hred).
Qed.

Lemma updates_query_returns_all_updates_witness :
  let query := Updates.query Example.service (Example.self Updates.cls)
                             (Example.pool 2) Py.None_ 12000 0
                             (Py.Bool false) Example.heap in
  let jobs := pending (Engine.main query) in
  let run := Updates.run Example.service (Example.self Updates.cls)
                         Example.heap in
  let g := λ _ : gmap string Py.val, [Py.Str "row"] in
  length jobs = 2%nat
  ∧ (∀ sched v,
       Engine.main (run sched query) = Engine.Returned v →
       ∃ order, order ≡ₚ jobs ∧ v = Py.List (concat (map g order)))
  ∧ (∀ sched e, Engine.main (run sched query) ≠ Engine.Raised e)
  ∧ ((0 < 2)%nat →
     Engine.main (run (one_by_one (length jobs) ++ [Caller]) query)
     = Engine.Returned (Py.List (concat (map g jobs)))).
Proof.
  intros query jobs run g. split; [by vm_compute|].
  apply (updates_query_returns_all_updates Example.service
           (Example.self Updates.cls) Example.heap Example.heap 2
           Py.None_ (Py.Bool false) 12000 0 jobs
           (λ _, Example.document) g).
  - vm_compute. reflexivity.
  - intros job _. split; [|reflexivity].
    unfold BaseQuery.outcome, Updates.parse. rewrite get_run. reflexivity.
Defined.

Lemma search_query_returns_all_docs_witness :
  let query := Search.query Example.service (Example.self Search.cls)
                            (Example.pool 2) (Py.Str "name")
                            (Py.Str "crude oil") (Py.Str "all") (Py.Int 1)
                            Example.heap in
  let jobs := pending (Engine.main query) in
  let run := Search.run Example.service (Example.self Search.cls)
                        Example.heap in
  let g := λ _ : gmap string Py.val, [Py.Str "doc"] in
  length jobs = 3%nat
  ∧ (∀ sched v,
       Engine.main (run sched query) = Engine.Returned v →
       ∃ order, order ≡ₚ jobs ∧ v = Py.List (concat (map g order)))
  ∧ (∀ sched e, Engine.main (run sched query) ≠ Engine.Raised e)
  ∧ ((0 < 2)%nat →
     Engine.main (run (one_by_one (length jobs) ++ [Caller]) query)
     = Engine.Returned (Py.List (concat (map g jobs)))).
Proof.
  intros query jobs run g. split; [by vm_compute|].
  apply (search_query_returns_all_docs Example.service
           (Example.self Search.cls) Example.heap Example.heap 2
           (Py.Str "name") (Py.Str "crude oil") (Py.Str "all") (Py.Int 1)
           jobs g).
  - vm_compute. reflexivity.
  - intros job _.
    unfold BaseQuery.outcome, Search.parse, Seq.bind.
    rewrite get_run. reflexivity.
Defined.

(** ** Progress of a batch whose jobs all succeed *)

Lemma work_insert {Job Result} (cs : list (Engine.consumer Job Result))
      (n : nat) (c c' : Engine.consumer Job Result) :
  cs !! n = Some c →
  (sum_list_with consumer_work (<[n := c']> cs) + consumer_work c
   = sum_list_with consumer_work cs + consumer_work c')%nat.
Proof.
  revert n. induction cs as [|x cs IH]; intros n Hn; [done|].
  destruct n as [|n]; simpl in *.
  - injection Hn as ->. lia.
  - specialize (IH n Hn). lia.
Qed.

Lemma owing_lookup {Job Result} (cs : list (Engine.consumer Job Result)) :
  flat_map owing cs ≠ [] →
  ∃ i ci, cs !! i = Some ci ∧ ci ≠ Engine.AtGet.
Proof.
  induction cs as [|x cs IH]; simpl; [done|]. intros Hne.
  destruct x eqn:Hx; try (by exists O; eexists; split; [done|discriminate]).
  simpl in Hne. destruct (IH Hne) as (i & ci & Hi & Hci).
  by exists (S i), ci.
Qed.

Section Progress.
Context {Job Result Out : Type}.
Variable parse : Job → Py.result Result.
Variable reduce : list Result → Py.result Out.
Variable jobs : list Job.

Lemma work_step_le t s :
  invariant parse reduce jobs s →
  (work (Engine.step parse reduce t s) ≤ work s)%nat.
Proof.
  intros (collected & Hm & _ & _).
  destruct s as [m p]. unfold work. simpl in *.
  destruct t as [|n]; simpl.
  - unfold Engine.caller_step. simpl.
    destruct m as [[|job rest] next|count|[|k] out|out|v|e]; simpl in *;
      try lia.
    + destruct next; simpl in *; try done; lia.
    + rewrite length_app. simpl. lia.
    + destruct (Engine.unfinished_tasks p); [destruct count|]; simpl; lia.
    + destruct (Engine.results p) eqn:Hr; simpl; rewrite ?Hr; simpl; lia.
    + destruct (reduce out); simpl; lia.
  - unfold Engine.consumer_step. simpl.
    destruct (Engine.consumers p !! n) as [c|] eqn:Hc; [|simpl; lia].
    pose proof (λ c', work_insert _ n c c' Hc) as Hw.
    destruct c as [|job|r|e| |e]; simpl in *.
    + destruct (Engine.queue p) as [|job rest] eqn:Hq; simpl;
        rewrite ?Hq; simpl.
      * specialize (Hw Engine.AtGet). simpl in Hw. lia.
      * specialize (Hw (Engine.AtParse job)). simpl in Hw. lia.
    + destruct (parse job) as [e|r]; simpl.
      * specialize (Hw (Engine.AtWarn e)). simpl in Hw. lia.
      * specialize (Hw (Engine.AtPut r)). simpl in Hw. lia.
    + specialize (Hw Engine.AtTaskDone). simpl in Hw.
      rewrite length_app. simpl. lia.
    + specialize (Hw (Engine.Terminated (Py.NameError "warn"))).
      simpl in Hw. lia.
    + destruct (Engine.unfinished_tasks p); simpl.
      * specialize (Hw (Engine.Terminated Py.ValueError)). simpl in Hw. lia.
      * specialize (Hw Engine.AtGet). simpl in Hw. lia.
    + specialize (Hw (Engine.Terminated e)). simpl in Hw. lia.
Qed.

Lemma work_run_le sched s :
  invariant parse reduce jobs s →
  (work (Engine.run parse reduce sched s) ≤ work s)%nat.
Proof.
  revert s. induction sched as [|t sched IH]; intros s Hinv; [done|].
  rewrite run_cons.
  etrans; [apply IH; by apply invariant_step|by apply work_step_le].
Qed.

Lemma work_batch c :
  work (batch (Result := Result) (Out := Out) c jobs)
  = (6 * length jobs + 4)%nat.
Proof.
  unfold work, batch. simpl.
  assert (sum_list_with (consumer_work (Job := Job) (Result := Result))
                        (repeat Engine.AtGet c) = O) as ->
    by (induction c; simpl; done).
  lia.
Qed.

(** In a batch whose jobs all succeed, and which has a consumer, some
    thread can make an operation as long as the caller has not
    finished. *)
Lemma work_step_lt c sched :
  let s := Engine.run parse reduce sched (batch c jobs) in
  (∀ job, job ∈ jobs → ∃ r, parse job = inr r) →
  (0 < c)%nat →
  ¬ finished (Engine.main s) →
  ∃ t, (work (Engine.step parse reduce t s) < work s)%nat.
Proof.
  intros s Hall Hc Hfin.
  assert (Hinv : invariant parse reduce jobs s)
    by apply invariant_run, invariant_batch.
  assert (Hlen : length (Engine.consumers (Engine.self_pool s)) = c).
  { subst s. rewrite run_consumers_length. simpl. apply repeat_length. }
  pose proof (failures_run parse reduce jobs sched _
                (invariant_batch parse reduce jobs c)
                (failures_batch parse jobs c)) as Hf.
  fold s in Hf. unfold failures_accounted in Hf. cbv zeta in Hf.
  rewrite (failure_all_succeed parse jobs Hall) in Hf. simpl in Hf.
  assert (Hfailed : flat_map failed (Engine.consumers (Engine.self_pool s))
                    = [])
    by (destruct (flat_map failed _); [done|simpl in Hf; lia]).
  assert (Hheld : ∀ job,
             job ∈ flat_map held (Engine.consumers (Engine.self_pool s)) →
             ∃ r, parse job = inr r).
  { intros job Hjob.
    apply (failure_nil parse
             (flat_map held (Engine.consumers (Engine.self_pool s))
              ++ Engine.queue (Engine.self_pool s)
              ++ pending (Engine.main s))).
    - destruct (flat_map (failure parse) _); [done|].
      rewrite length_cons in Hf. lia.
    - apply elem_of_app. by left. }
  assert (Hres : ∀ k out, Engine.main s = Engine.Collecting (S k) out →
                          Engine.results (Engine.self_pool s) ≠ []).
  { intros k out Hmain.
    destruct (past_join_pool parse reduce jobs c sched)
      as (collected & Hm & _ & _ & _ & Hperm).
    { fold s. by rewrite Hmain. }
    fold s in Hm, Hperm. rewrite Hmain in Hm. simpl in Hm.
    destruct Hm as [-> Hk].
    apply Permutation_length in Hperm.
    rewrite (success_length_all parse jobs Hall), length_app in Hperm.
    destruct (Engine.results _); [simpl in Hperm; lia|done]. }
  clear Hf. clearbody s.
  destruct Hinv as (collected & Hm & Hcount & _).
  destruct s as [m p]. unfold work. simpl in *.
  destruct m as [[|job rest] next|count|[|k] out|out|v|e]; simpl in *;
    try done.
  - exists Caller. simpl. unfold Engine.caller_step. simpl.
    destruct next; simpl in *; try done. lia.
  - exists Caller. simpl. unfold Engine.caller_step. simpl.
    rewrite length_app. simpl. lia.
  - destruct (Engine.unfinished_tasks p) as [|u] eqn:Hu.
    { exists Caller. simpl. unfold Engine.caller_step. simpl. rewrite Hu.
      destruct count; simpl; lia. }
    destruct (flat_map owing (Engine.consumers p)) as [|[] os] eqn:Ho.
    + apply owing_nil in Ho. rewrite Hlen in Ho.
      destruct c as [|c']; [lia|].
      destruct (Engine.queue p) as [|job rest] eqn:Hq; [simpl in *; lia|].
      exists (Consumer 0). simpl. unfold Engine.consumer_step. simpl.
      rewrite Ho. simpl. rewrite Hq. simpl. rewrite Ho. simpl. lia.
    + destruct (owing_lookup (Engine.consumers p)) as (i & ci & Hi & Hci);
        [by rewrite Ho|].
      pose proof (λ c', work_insert _ i ci c' Hi) as Hw.
      destruct (flat_map_insert held _ i ci Hi) as (H & HH & _).
      destruct (flat_map_insert failed _ i ci Hi) as (F & HF & _).
      rewrite Hfailed in HF.
      exists (Consumer i). simpl. unfold Engine.consumer_step. simpl.
      rewrite Hi.
      destruct ci as [|job|r|e| |e]; simpl in *; try done.
      * destruct (Hheld job) as [r Hr].
        { rewrite HH. by left. }
        rewrite Hr. simpl.
        specialize (Hw (Engine.AtPut r)). simpl in Hw. lia.
      * specialize (Hw Engine.AtTaskDone). simpl in Hw.
        rewrite length_app. simpl. lia.
      * by apply Permutation_nil_cons in HF.
      * rewrite Hu. simpl.
        specialize (Hw Engine.AtGet). simpl in Hw. lia.
      * by apply Permutation_nil_cons in HF.
  - exists Caller. simpl. unfold Engine.caller_step. simpl. lia.
  - exists Caller. simpl. unfold Engine.caller_step. simpl.
    destruct (Engine.results p) as [|r rest] eqn:Hr;
      [by destruct (Hres k out eq_refl)|].
    simpl. rewrite ?Hr. simpl. lia.
  - exists Caller. simpl. unfold Engine.caller_step. simpl.
    destruct (reduce out); simpl; lia.
Qed.

Lemma can_finish c (n : nat) :
  (∀ job, job ∈ jobs → ∃ r, parse job = inr r) →
  (0 < c)%nat →
  ∀ sched,
    (work (Engine.run parse reduce sched (batch c jobs)) ≤ n)%nat →
    ∃ more,
      (length more ≤ n)%nat
      ∧ finished (Engine.main
                    (Engine.run parse reduce (sched ++ more) (batch c jobs))).
Proof.
  intros Hall Hc. induction n as [|n IH]; intros sched Hwork.
  - exists []. split; [done|]. rewrite app_nil_r.
    destruct (Engine.run parse reduce sched (batch c jobs)) as [m p] eqn:Hs.
    unfold work in Hwork. simpl in *.
    destruct m; simpl in *; try done; lia.
  - destruct (Engine.run parse reduce sched (batch c jobs)) as [m p] eqn:Hs.
    assert (Hdec : Decision (finished m))
      by (destruct m; simpl; apply _).
    destruct Hdec as [Hfin|Hfin].
    { exists []. split; [simpl; lia|]. by rewrite app_nil_r, Hs. }
    destruct (work_step_lt c sched Hall Hc) as [t Ht].
    { by rewrite Hs. }
    rewrite Hs in Ht.
    destruct (IH (sched ++ [t])) as (more & Hlen & Hdone).
    { rewrite run_app, Hs. simpl. lia. }
    exists (t :: more). split; [simpl; lia|].
    by rewrite <- app_assoc in Hdone.
Qed.

(** X23. A batch whose jobs all make [parse] return, on an instance with
    at least one consumer, can never get stuck: whatever the threads have
    done so far, there is a continuation of at most 6 n + 4 operations
    (for n jobs) after which the query method has returned or raised. So
    a hang of [queue.join()] or of [results.get()] needs a job that
    fails, or an instance without consumers. *)
Theorem batch_can_always_finish (c : nat) (sched : list thread) :
  (∀ job, job ∈ jobs → ∃ r, parse job = inr r) →
  (0 < c)%nat →
  ∃ more,
    (length more ≤ 6 * length jobs + 4)%nat
    ∧ finished (Engine.main
                  (Engine.run parse reduce (sched ++ more) (batch c jobs))).
Proof.
  intros Hall Hc. apply can_finish; [done|done|].
  rewrite <- (work_batch c).
  apply work_run_le, invariant_batch.
Qed.

End Progress.

Lemma batch_can_always_finish_witness :
  ∃ more,
    (length more ≤ 6 * 2 + 4)%nat
    ∧ finished (Engine.main
                  (Series.run Example.service (Example.self Series.cls)
                              Example.heap
                              ([Caller; Consumer 0; Caller; Consumer 1]
                               ++ more)
                              (batch 2 ["A"; "B"]))).
Proof.
  apply (batch_can_always_finish
           (λ job, BaseQuery.outcome
                     (Series.parse Example.service (Example.self Series.cls)
                                   job) Example.heap)
           Series.reduce ["A"; "B"] 2 [Caller; Consumer 0; Caller; Consumer 1]).
  - intros job Hjob.
    decompose_list_elem_of; subst job; eexists; vm_compute; reflexivity.
  - lia.
Defined.

(** ** An instance without consumers *)

Section NoConsumer.
Context {Job Result Out : Type}.
Variable parse : Job → Py.result Result.
Variable reduce : list Result → Py.result Out.

Lemma held_at_join_step t (s : Engine.system Job Result Out) :
  Engine.consumers (Engine.self_pool s) = [] →
  Engine.results (Engine.self_pool s) = [] →
  held_at_join s →
  let s' := Engine.step parse reduce t s in
  Engine.consumers (Engine.self_pool s') = []
  ∧ Engine.results (Engine.self_pool s') = []
  ∧ held_at_join s'.
Proof.
  destruct s as [m p]. unfold held_at_join. simpl. intros Hcs Hrs Hm.
  destruct t as [|n]; simpl.
  - unfold Engine.caller_step. simpl.
    destruct m as [[|job rest] next|count| | | |]; simpl in *; try done.
    + destruct next; simpl in *; try done.
      destruct Hm as [Hm|Hm]; done.
    + destruct next; simpl in *; try done. repeat split; try done.
      by right.
    + destruct (Engine.unfinished_tasks p) eqn:Hu; simpl; [done|].
      by rewrite Hu.
  - unfold Engine.consumer_step. simpl. rewrite Hcs. simpl. done.
Qed.

Lemma held_at_join_run sched (s : Engine.system Job Result Out) :
  Engine.consumers (Engine.self_pool s) = []
  ∧ Engine.results (Engine.self_pool s) = []
  ∧ held_at_join s →
  let s' := Engine.run parse reduce sched s in
  Engine.consumers (Engine.self_pool s') = []
  ∧ Engine.results (Engine.self_pool s') = []
  ∧ held_at_join s'.
Proof.
  revert s. induction sched as [|t sched IH]; intros s Hs; [done|].
  cbv zeta. rewrite run_cons. apply IH.
  destruct Hs as (H1 & H2 & H3). by apply held_at_join_step.
Qed.

(** X24. On an instance created with [consumers=0] no thread serves the
    queue: a query that puts at least one job never gets past
    [self.queue.join()], under any schedule, and nothing is ever
    recorded in [self.results]. *)
Theorem no_consumer_never_past_join (jobs : list Job) (sched : list thread) :
  jobs ≠ [] →
  let s := Engine.run parse reduce sched (batch 0 jobs) in
  ¬ past_join (Engine.main s)
  ∧ ¬ finished (Engine.main s)
  ∧ Engine.results (Engine.self_pool s) = []
  ∧ Engine.unfinished_tasks (Engine.self_pool s)
    = length (Engine.queue (Engine.self_pool s)).
Proof.
  intros Hne s.
  assert (Hs : Engine.consumers (Engine.self_pool s) = []
               ∧ Engine.results (Engine.self_pool s) = []
               ∧ held_at_join s).
  { subst s. apply held_at_join_run. repeat split. by left. }
  destruct Hs as (Hcs & Hrs & Hheld).
  pose proof (invariant_run parse reduce jobs sched _
                (invariant_batch parse reduce jobs 0))
    as (collected & _ & Hcount & _).
  fold s in Hcount. rewrite Hcs in Hcount. simpl in Hcount.
  unfold held_at_join in Hheld.
  repeat split; [| |done|lia];
    destruct (Engine.main s) as [? []| | | | |]; simpl in *; tauto.
Qed.

End NoConsumer.

Lemma no_consumer_never_past_join_witness :
  let s := Series.run Example.service (Example.self Series.cls) Example.heap
                      [Caller; Consumer 0; Caller; Caller; Consumer 0; Caller]
                      (batch 0 ["A"]) in
  ¬ past_join (Engine.main s)
  ∧ ¬ finished (Engine.main s)
  ∧ Engine.results (Engine.self_pool s) = []
  ∧ Engine.unfinished_tasks (Engine.self_pool s)
    = length (Engine.queue (Engine.self_pool s)).
Proof.
  apply (no_consumer_never_past_join
           (λ job, BaseQuery.outcome
                     (Series.parse Example.service (Example.self Series.cls)
                                   job) Example.heap)
           Series.reduce ["A"]
           [Caller; Consumer 0; Caller; Caller; Consumer 0; Caller]).
  discriminate.
Defined.
